(** * ipynb-template: the embedding-projection notebook, verified

    A shallow embedding of [exercise.ipynb]: the similarity functions, the
    construction of training pairs, the training loop, the retrieval
    function and the evaluation metric, each followed cell by cell.

    External collaborators are taken as parameters: the sentence-transformer
    ([model.encode]) and what PyTorch supplies ([BCEWithLogitsLoss],
    autograd, [optim.Adam]).

    Scalars are kept behind the interface [Arith].  One scalar type stands
    for the entries of torch's tensors and for Python's [float], so
    [.item()] and [torch.tensor] are the identity.  In the notebook the
    tensors are float32 and Python's floats are binary64: embeddings,
    scores and losses are computed in float32; the threshold, the average
    precision, the MAP, the split index and the division of the
    validation loss in binary64.  The interface has an instance for each
    of the two formats ([float32_arith] and [float_arith]) and one for the
    exact rationals.  A general theorem holds for every arithmetic, or
    states the laws it needs as a hypothesis ([ZeroOneLaws],
    [CountingLaws], [MulCommutative]) and holds for every arithmetic that
    satisfies them.  The runs on concrete inputs are made in binary64,
    with numbers that float32 holds as well and on which the two formats
    compute the same; an input on which they differ is run in both
    ([example_pairs_rounding]). *)

From Stdlib Require Import QArith Qabs Qcanon Floats Sorted.
From Stdlib Require Import Ascii.
From stdpp Require Import gmap strings list pretty.

(** ** Scalars *)

(** The operations the notebook applies to numbers.  [of_nat] is the
    conversion of a Python [int] to a number, [fltb x y] is [x < y],
    [fleb x y] is [x <= y], and [fmt4 x] is [format(x, ".4f")]. *)
Class Arith (T : Type) := {
  of_nat : nat → T;
  fadd : T → T → T;
  fmul : T → T → T;
  fdiv : T → T → T;
  fltb : T → T → bool;
  fleb : T → T → bool;
  fmt4 : T → string;
}.

Declare Scope num_scope.
Delimit Scope num_scope with num.
Infix "+" := fadd : num_scope.
Infix "*" := fmul : num_scope.
Infix "/" := fdiv : num_scope.
Abbreviation f0 := (of_nat 0).
Abbreviation f1 := (of_nat 1).

Definition fle `{Arith T} (x y : T) : Prop := fleb x y = true.
Infix "≤" := fle : num_scope.

(** [finite x]: [x] is a number, neither an infinity nor NaN. *)
Class Finiteness (T : Type) := finite : T → Prop.

(** What IEEE 754 arithmetic keeps of the laws of 0 and 1.  A float
    format has two zeros: [0 + x] is [x], except that it is the positive
    zero when [x] is the negative one, so [0 + x = x] says that [x] is not
    the negative zero.  One is neutral for multiplication.  A sum is the
    negative zero only when both terms are.  A finite number times zero is
    a zero, of either sign (an infinity times zero is NaN), and adding a
    zero of either sign to a number other than the negative zero leaves
    it as it is. *)
Class ZeroOneLaws (T : Type) `{Arith T, Finiteness T} : Prop := {
  fmul_1_r (x : T) : (x * f1 = x)%num;
  fadd_0_0 : (f0 + f0 = f0 :> T)%num;
  fadd_0_sum (x y : T) : (f0 + x = x → f0 + (x + y) = x + y)%num;
  fadd_zero_product (x y : T) :
    finite x → (f0 + y = y → y + x * f0 = y)%num;
  fmul_zero_sign (x y z : T) :
    (f0 + z = z → z + (f0 + x) * y = z + x * y)%num;
}.

(** How the order, addition and division behave on numbers compared with
    counters. *)
Class CountingLaws (T : Type) `{Arith T} : Prop := {
  of_nat_mono (m n : nat) : m ≤ n → (of_nat m ≤ of_nat n)%num;
  fadd_nonneg (x y : T) : (f0 ≤ x → f0 ≤ y → f0 ≤ x + y)%num;
  fadd_le_succ (x y : T) (k : nat) :
    (x ≤ of_nat k → y ≤ f1 → x + y ≤ of_nat (S k))%num;
  fdiv_nonneg (x : T) (n : nat) :
    0 < n → (f0 ≤ x → f0 ≤ x / of_nat n)%num;
  fdiv_le_1 (x : T) (k n : nat) :
    k ≤ n → 0 < n → (x ≤ of_nat k → x / of_nat n ≤ f1)%num;
  fadd_succ (k : nat) : (of_nat k + f1 = of_nat (S k))%num;
  fdiv_diag (n : nat) : 0 < n → (of_nat n / of_nat n = f1)%num;
}.

(** *** Fixed-point formatting, [format(x, ".4f")] *)

(** Nearest integer to a rational, ties to the even neighbour. *)
Definition round_half_even (q : Q) : Z :=
  let d := Z.pos (Qden q) in
  let lo := (Qnum q / d)%Z in
  let r := (Qnum q mod d)%Z in
  if (2 * r <? d)%Z then lo
  else if (d <? 2 * r)%Z then (lo + 1)%Z
  else if Z.even lo then lo else (lo + 1)%Z.

Definition pad4 (s : string) : string :=
  String.concat "" (replicate (4 - String.length s) "0") +:+ s.

(** The sign is printed from the sign of the number itself, so a small
    negative number prints as ["-0.0000"]. *)
Definition format_4f (negative : bool) (magnitude : Q) : string :=
  let n := round_half_even (magnitude * 10000) in
  (if negative then "-" else "") +:+ pretty (n / 10000)%Z +:+ "." +:+
  pad4 (pretty (n mod 10000)%Z).

(** *** Python's [float]: IEEE binary64 *)

Definition float_fmt4 (x : float) : string :=
  match Prim2SF x with
  | S754_zero s => format_4f s 0
  | S754_infinity s => if s then "-inf" else "inf"
  | S754_nan => "nan"
  | S754_finite s m e => format_4f s (inject_Z (Z.pos m) * Qpower 2 e)
  end.

#[export] Instance float_arith : Arith float := {|
  of_nat n := PrimFloat.of_uint63 (Uint63.of_Z (Z.of_nat n));
  fadd := PrimFloat.add;
  fmul := PrimFloat.mul;
  fdiv := PrimFloat.div;
  fltb := PrimFloat.ltb;
  fleb := PrimFloat.leb;
  fmt4 := float_fmt4;
|}.

#[export] Instance float_finiteness : Finiteness float :=
  λ x, PrimFloat.is_finite x = true.

(** *** torch's [float32]: IEEE binary32

    A number of 24 significant bits and exponent range up to 2^128, with
    the operations of the IEEE specification at that precision.
    [.item()] yields the Python float of the same value, which is what
    gets formatted and compared.  In this format [7 / 10] is the float32
    just below Python's [0.7]; no float32 lies between the two, so a
    float32 score is above the one exactly when it is above the other. *)
Definition float32 : Type := spec_float.

Definition float32_fmt4 (x : float32) : string :=
  match x with
  | S754_zero s => format_4f s 0
  | S754_infinity s => if s then "-inf" else "inf"
  | S754_nan => "nan"
  | S754_finite s m e => format_4f s (inject_Z (Z.pos m) * Qpower 2 e)
  end.

#[export] Instance float32_arith : Arith float32 := {|
  of_nat n := binary_normalize 24 128 (Z.of_nat n) 0 false;
  fadd := SFadd 24 128;
  fmul := SFmul 24 128;
  fdiv := SFdiv 24 128;
  fltb := SFltb;
  fleb := SFleb;
  fmt4 := float32_fmt4;
|}.

(** *** Exact rationals *)

Definition Qc_of_nat (n : nat) : Qc := Q2Qc (inject_Z (Z.of_nat n)).

#[export] Instance Qc_arith : Arith Qc := {|
  of_nat := Qc_of_nat;
  fadd := Qcplus;
  fmul := Qcmult;
  fdiv := Qcdiv;
  fltb x y := bool_decide (x < y)%Qc;
  fleb x y := bool_decide (x ≤ y)%Qc;
  fmt4 x := format_4f (bool_decide (x < 0)%Qc) (Qabs (this x));
|}.

#[export] Instance Qc_finiteness : Finiteness Qc := λ _, True.

(** ** Python exceptions *)

Inductive py_error :=
  | RuntimeError      (* torch: operand shapes do not match *)
  | AttributeError.   (* [.item()] on a Python [int] *)

Inductive result (A : Type) :=
  | Ok (a : A)
  | Raise (e : py_error).
Arguments Ok {A} a.
Arguments Raise {A} e.

#[export] Instance result_ret : MRet result := λ A, Ok.
#[export] Instance result_bind : MBind result := λ A B f m,
  match m with Ok a => f a | Raise e => Raise e end.

(** [for x in xs: s = body(s, x)], stopping at the first exception. *)
Fixpoint for_each {S X} (body : S → X → result S) (xs : list X) (s : S)
    : result S :=
  match xs with
  | [] => Ok s
  | x :: xs => s' ← body s x; for_each body xs s'
  end.

(** ** Tensors *)

(** A 1-D tensor is the list of its entries, a 2-D tensor the list of its
    rows. *)
Abbreviation vector T := (list T) (only parsing).
Abbreviation matrix T := (list (list T)) (only parsing).

Section tensors.
Context {T : Type} `{Arith T}.
Local Open Scope num_scope.

Definition has_shape (r c : nat) (M : matrix T) : Prop :=
  length M = r ∧ Forall (λ row, length row = c) M.

Definition ncols (M : matrix T) : nat := length (default [] (head M)).

(** [a @ b] for two 1-D tensors; torch refuses operands of different
    sizes. *)
Definition dot (a b : vector T) : result T :=
  if decide (length a = length b)
  then Ok (foldl (λ acc xy, acc + xy.1 * xy.2) f0 (zip a b))
  else Raise RuntimeError.

(** [a @ M] for a 1-D tensor and a 2-D tensor: entry [k] of the result is
    the sum over [j] of [a[j] * M[j][k]]. *)
Definition vecmat (a : vector T) (M : matrix T) : result (vector T) :=
  if decide (length a = length M)
  then Ok ((λ k, foldl (λ acc xr, acc + xr.1 * default f0 (xr.2 !! k)) f0
                   (zip a M))
             <$> seq 0 (ncols M))
  else Raise RuntimeError.

(** [torch.eye(n)]. *)
Definition unit_row (n j : nat) : vector T :=
  (λ k, if decide (j = k) then f1 else f0) <$> seq 0 n.
Definition eye (n : nat) : matrix T := unit_row n <$> seq 0 n.

(** Entrywise sum of two 2-D tensors, as [+=] on a gradient does. *)
Definition madd (A B : matrix T) : matrix T := zip_with (zip_with fadd) A B.

(** [M[j][k]], and 0 outside of the tensor. *)
Definition entry (M : matrix T) (j k : nat) : T :=
  default f0 (M !! j ≫= (.!! k)).

(** The arithmetic mean of a list of numbers, 0 for the empty list. *)
Definition mean (xs : list T) : T :=
  if decide (xs = []) then f0 else foldl fadd f0 xs / of_nat (length xs).
End tensors.

(** ** The notebook *)

(** Cell 9: one record of the dataset. *)
Record Example := { user_input : string; snippets : list string }.

(** A training pair: (user input, code snippet, label). *)
Definition TrainingPair : Type := string * string * nat.

(** The Python values [evaluate_retrieval_strategy] can be compared with. *)
Inductive py_value (T : Type) :=
  | PyNum (x : T)
  | PyStr (s : string).
Arguments PyNum {T} x.
Arguments PyStr {T} s.

Section notebook.
Context {T : Type} `{Arith T}.
Local Open Scope num_scope.

(** [model.encode([text])[0]]: the sentence-transformer, an external
    collaborator. *)
Variable encode : string → vector T.

(** *** Cell 3: [embed] *)

(** [torch.tensor(embedding, dtype=torch.float32)] keeps the entries. *)
Definition embed (text : string) : vector T :=
  let embedding := encode text in
  embedding.

(** [embed] together with the call it makes: [calls] lists the texts the
    model has been asked to encode, oldest first. *)
Definition embed_traced (text : string) (calls : list string)
    : vector T * list string :=
  let embedding := encode text in
  (embedding, calls ++ [text]).

(** A run of lookups, one [embed] after the other. *)
Fixpoint lookups (texts : list string) (calls : list string)
    : list (vector T) * list string :=
  match texts with
  | [] => ([], calls)
  | text :: texts =>
      let '(v, calls) := embed_traced text calls in
      let '(vs, calls) := lookups texts calls in
      (v :: vs, calls)
  end.

(** [dim = len(embed("Hello world"))]. *)
Definition dim : nat := length (embed "Hello world").

(** *** Cell 5: [similarity] *)

Definition similarity (x_i x_c : string) : result T :=
  let a := embed x_i in
  let b := embed x_c in
  dot a b.

(** *** Cell 7: [similarity_with_projection] *)

Definition similarity_with_projection (x_i x_c : string) (P : matrix T)
    : result T :=
  let a := embed x_i in
  let b := embed x_c in
  aP ← vecmat a P; dot aP b.

(** *** Cell 11: the training pairs *)

(** [threshold = 0.7]: the float nearest to 7/10, which is what the
    division of 7 by 10 yields. *)
Definition threshold : T := of_nat 7 / of_nat 10.

(** The body of the inner loop: label one snippet of [example] and
    append the pair. *)
Definition label_pair (example : Example) (example_pairs : list TrainingPair)
    (snippet : string) : result (list TrainingPair) :=
  similarity_score ← similarity (user_input example) snippet;
  if fltb threshold similarity_score
  then Ok (example_pairs ++ [(user_input example, snippet, 1)])
  else Ok (example_pairs ++ [(user_input example, snippet, 0)]).

(** The pairs are appended to a list that starts empty. *)
Definition example_pairs (dataset : list Example) : result (list TrainingPair) :=
  for_each (λ example_pairs example,
              for_each (label_pair example) (snippets example) example_pairs)
           dataset [].

(** *** Cell 18: retrieval *)

(** The corpus: the snippets of all Examples, in dataset order. *)
Definition all_snippets (dataset : list Example) : list string :=
  foldl (λ all_snippets example,
           foldl (λ all_snippets snippet, all_snippets ++ [snippet])
                 all_snippets (snippets example))
        [] dataset.

(** [P] and [all_snippets] are globals of the notebook. *)
Definition retrieve_relevant_snippets (P : matrix T)
    (all_snippets : list string) (user_input : string)
    : result (list (string * T)) :=
  let user_embedding := embed user_input in
  projected_user_embedding ← vecmat user_embedding P;
  for_each (λ similarities snippet,
              let snippet_embedding := embed snippet in
              similarity ← dot projected_user_embedding snippet_embedding;
              Ok (similarities ++ [(snippet, similarity)]))
           all_snippets [].

(** *** Cell 21: evaluation *)

(** The loop of [average_precision]; [i] is the 1-based rank of the head
    of [retrieved_items].  [relevant_count / i] divides two Python
    integers, which yields a float. *)
Fixpoint ap_loop (relevant_set : gset string)
    (retrieved_items : list (string * T)) (i : nat)
    (precision_sum : T) (relevant_count : nat) : T * nat :=
  match retrieved_items with
  | [] => (precision_sum, relevant_count)
  | (item, _) :: retrieved_items =>
      if decide (item ∈ relevant_set)
      then
        let relevant_count := S relevant_count in
        let precision_sum :=
          precision_sum + of_nat relevant_count / of_nat i in
        ap_loop relevant_set retrieved_items (S i) precision_sum
                relevant_count
      else
        ap_loop relevant_set retrieved_items (S i) precision_sum
                relevant_count
  end.

(** [... if relevant_items else 0]: a list is true when it is not
    empty. *)
Definition average_precision (relevant_items : list string)
    (retrieved_items : list (string * T)) : T :=
  let relevant_set : gset string := list_to_set relevant_items in
  let '(precision_sum, _) := ap_loop relevant_set retrieved_items 1 f0 0 in
  if decide (relevant_items = []) then f0
  else precision_sum / of_nat (length relevant_items).

(** [dataset] is a global of the notebook. *)
Definition evaluate_retrieval_strategy (dataset : list Example)
    (retrieval_strategy : string → result (list (string * T)))
    : result (py_value T) :=
  '(total_ap, num_queries) ←
    for_each (λ '(total_ap, num_queries) example,
                retrieved ← retrieval_strategy (user_input example);
                let ap := average_precision (snippets example) retrieved in
                Ok (total_ap + ap, S num_queries))
             dataset (f0, 0);
  let map_score :=
    if decide (0 < num_queries) then total_ap / of_nat num_queries else f0 in
  Ok (PyStr ("Mean Average Precision (MAP): " +:+ fmt4 map_score)).

(** *** Cells 14 and 16: the loss and the training loop *)

(** What PyTorch supplies. *)

(** [nn.BCEWithLogitsLoss()(predictions, targets)] on one prediction. *)
Variable loss_func : T → T → T.

(** What [loss.backward()] adds to [P.grad]: the gradient with respect to
    [P] of the loss of one pair, at the current [P]. *)
Variable loss_gradient : TrainingPair → matrix T → matrix T.

(** The state of [optim.Adam([P], lr=0.001)] and its [step()], which reads
    [P.grad] ([None] when nothing was accumulated) and yields the new
    state and the new [P]. *)
Variable Adam : Type.
Variable adam_step : Adam → matrix T → option (matrix T) → Adam * matrix T.

(** The training and validation pairs of cell 12. *)
Variables train_pairs val_pairs : list TrainingPair.

Inductive call :=
  | ZeroGrad               (* optimizer.zero_grad() *)
  | Backward (p : TrainingPair)    (* loss.backward() *)
  | Step.                  (* optimizer.step() *)

Record trainer := {
  P : matrix T;                 (* the projection matrix *)
  P_grad : option (matrix T);   (* P.grad *)
  optimizer : Adam;
  calls : list call;            (* calls made so far, oldest first *)
  stdout : list (nat * T);      (* (epoch, validation loss) printed so far *)
}.

(** [loss_func(similarity_with_projection(x_i, x_c, P).unsqueeze(0), y)]. *)
Definition pair_loss (P : matrix T) (p : TrainingPair) : result T :=
  let '(x_i, x_c, y) := p in
  prediction ← similarity_with_projection x_i x_c P;
  let y := of_nat y in
  Ok (loss_func prediction y).

(** [optimizer.zero_grad()]: [P.grad] becomes [None]. *)
Definition zero_grad (st : trainer) : trainer :=
  {| P := P st; P_grad := None; optimizer := optimizer st;
     calls := calls st ++ [ZeroGrad]; stdout := stdout st |}.

(** How autograd adds a gradient to [P.grad]: it is stored when there is
    none yet, and added entrywise otherwise. *)
Definition accumulate (grad : option (matrix T)) (g : matrix T)
    : option (matrix T) :=
  match grad with
  | None => Some g
  | Some grad => Some (madd grad g)
  end.

(** [loss.backward()] for the loss of pair [p]. *)
Definition backward (p : TrainingPair) (st : trainer) : trainer :=
  {| P := P st;
     P_grad := accumulate (P_grad st) (loss_gradient p (P st));
     optimizer := optimizer st;
     calls := calls st ++ [Backward p]; stdout := stdout st |}.

(** [optimizer.step()]. *)
Definition step (st : trainer) : trainer :=
  let '(optimizer, P) := adam_step (optimizer st) (P st) (P_grad st) in
  {| P := P; P_grad := P_grad st; optimizer := optimizer;
     calls := calls st ++ [Step]; stdout := stdout st |}.

(** [print(f"Epoch {epoch}/{num_epochs}: validation loss: {val_loss}")]. *)
Definition print (epoch : nat) (val_loss : T) (st : trainer) : trainer :=
  {| P := P st; P_grad := P_grad st; optimizer := optimizer st;
     calls := calls st; stdout := stdout st ++ [(epoch, val_loss)] |}.

(** The first half of an epoch: reset, one [backward] per training pair,
    one [step]. *)
Definition train_phase (st : trainer) : result trainer :=
  let st := zero_grad st in
  st ← for_each (λ st p, loss ← pair_loss (P st) p; Ok (backward p st))
                train_pairs st;
  Ok (step st).

(** The second half: [val_loss] starts as the integer 0; it is a tensor,
    and has [.item()], only once a loss has been added to it. *)
Definition validation_phase (epoch : nat) (st : trainer) : result trainer :=
  '(st, val_loss) ←
    for_each (λ '(st, val_loss) p,
                loss ← pair_loss (P st) p; Ok (st, val_loss + loss))
             val_pairs (st, f0);
  if decide (val_pairs = []) then Raise AttributeError
  else Ok (print epoch (val_loss / of_nat (length val_pairs)) st).

(** The body of the loop over the epochs. *)
Definition run_epoch (st : trainer) (epoch : nat) : result trainer :=
  st ← train_phase st; validation_phase epoch st.

(** [for epoch in range(num_epochs): ...] *)
Definition training (num_epochs : nat) (st : trainer) : result trainer :=
  for_each run_epoch (seq 0 num_epochs) st.

(** The sum of a list of gradients as [P.grad] holds it: [None] for no
    gradient at all. *)
Definition grad_sum (gs : list (matrix T)) : option (matrix T) :=
  match gs with
  | [] => None
  | g :: gs => Some (foldl madd g gs)
  end.
End notebook.

Arguments trainer T Adam : clear implicits.
Arguments P {T Adam} t.
Arguments P_grad {T Adam} t.
Arguments optimizer {T Adam} t.
Arguments calls {T Adam} t.
Arguments stdout {T Adam} t.
Arguments zero_grad {T Adam} st.
Arguments backward {T H} loss_gradient {Adam} p st.
Arguments step {T Adam} adam_step st.
Arguments print {T Adam} epoch val_loss st.
Arguments train_phase {T H} encode loss_func loss_gradient {Adam} adam_step
  train_pairs st.
Arguments validation_phase {T H} encode loss_func {Adam} val_pairs epoch st.
Arguments run_epoch {T H} encode loss_func loss_gradient {Adam} adam_step
  train_pairs val_pairs st epoch.
Arguments training {T H} encode loss_func loss_gradient {Adam} adam_step
  train_pairs val_pairs num_epochs st.

(** [num_epochs = 25]. *)
Definition num_epochs : nat := 25.

(** The trainer before the first epoch: [P] as drawn by [torch.randn], no
    gradient yet, a fresh optimizer. *)
Definition initial_trainer {T Adam} (P_init : matrix T) (adam_init : Adam)
    : trainer T Adam :=
  {| P := P_init; P_grad := None; optimizer := adam_init;
     calls := []; stdout := [] |}.

(** ** Reading aids for the statements *)

(** Every passage of the dataset paired with the query of its own
    Example, in dataset order. *)
Definition own_passages (dataset : list Example) : list (string * string) :=
  example ← dataset; snippet ← snippets example;
  [(user_input example, snippet)].

(** The pair emitted for a passage: its label is 1 when the similarity of
    query and passage exceeds the threshold, and 0 otherwise. *)
Definition labelled_by_threshold {T} `{Arith T} (encode : string → vector T)
    (qs : string * string) (p : TrainingPair) : Prop :=
  ∃ score, similarity encode qs.1 qs.2 = Ok score ∧
           p = (qs.1, qs.2, if fltb threshold score then 1 else 0).

(** A ranked list is in descending order of score. *)
Definition descending {T} `{Arith T} (ranked : list (string * T)) : Prop :=
  StronglySorted (λ x y, fle y.2 x.2) ranked.

(** ** Toy collaborators

    Concrete stand-ins for the external collaborators, used to run the
    notebook on small inputs. *)

Definition auth_question : string := "Where do we do auth?".
Definition auth_snippet : string := "def authenticate(): ...".
Definition sum_question : string := "How do we add two numbers?".
Definition sum_snippet : string := "def sum(a, b): ...".

(** Two-dimensional embeddings: the texts about authentication point
    along the first axis, the texts about addition along the second,
    every other text is the zero vector. *)
Definition toy_encode {T} `{Arith T} (text : string) : vector T :=
  if decide (text = auth_question) then [f1; f0]
  else if decide (text = auth_snippet) then [f1; f0]
  else if decide (text = sum_question) then [f0; f1]
  else if decide (text = sum_snippet) then [f0; f1]
  else [f0; f0].

(** A dataset of one Example, whose relevant passages are both
    snippets. *)
Definition toy_dataset : list Example :=
  [ {| user_input := auth_question;
       snippets := [auth_snippet; sum_snippet] |} ].

(** A dataset of two Examples with one relevant passage each. *)
Definition two_query_dataset : list Example :=
  [ {| user_input := sum_question; snippets := [sum_snippet] |};
    {| user_input := auth_question; snippets := [auth_snippet] |} ].

(** The matrix that exchanges the two axes. *)
Definition swap_matrix {T} `{Arith T} : matrix T := [[f0; f1]; [f1; f0]].

(** A model with an infinite entry in the embedding of one text: the
    question about authentication is embedded as [[inf, 1]], every other
    text as [[1, 0]]. *)
Definition unbounded_encode (text : string) : vector float :=
  if decide (text = auth_question) then [infinity; 1%float]
  else [1%float; 0%float].

(** One-dimensional embeddings whose product is rounded by float32: the
    question is embedded as [[tenth]], every other text as [[7]].  The
    float32 nearest to 1/10 is [13421773 * 2^-27], which binary64 holds
    as well. *)
Definition rounding_encode {T} `{Arith T} (tenth : T) (text : string)
    : vector T :=
  if decide (text = auth_question) then [tenth] else [of_nat 7].

Definition tenth_float32 : float32 := S754_finite false 13421773 (-27).
Definition tenth_float : float := 0x1.99999ap-4%float.

(** A model whose embeddings have overflowed: the one-dimensional vector
    holding +infinity, for every text. *)
Definition overflowed_encode (text : string) : vector float :=
  [infinity].

(** [BCEWithLogitsLoss] on a logit [x] so large that [log(1 + exp(-|x|))]
    vanishes: [(1 - y) * x + max(-x, 0)]. *)
Definition saturated_bce (x y : float) : float :=
  let relu_neg := if PrimFloat.ltb 0 (- x) then (- x)%float else 0%float in
  ((1 - y) * x + relu_neg)%float.

(** A small trainer of the same interface as the notebook's: the
    squared-error loss [(x - y)^2 / 2], its gradient with respect to [P]
    ([(x - y) * a[j] * b[k]] at entry [(j, k)], for the embeddings [a] of
    the query and [b] of the passage), and plain gradient descent with
    step size 1/2, which like Adam leaves [P] alone when there is no
    gradient.  The optimizer state counts the steps. *)
Definition squared_error (x y : float) : float :=
  ((x - y) * (x - y) / 2)%float.

Definition squared_error_gradient (encode : string → vector float)
    (p : TrainingPair) (P : matrix float) : matrix float :=
  let '(x_i, x_c, y) := p in
  match similarity_with_projection encode x_i x_c P with
  | Ok prediction =>
      (λ a_j, (λ b_k, (prediction - of_nat y) * a_j * b_k)%float
                <$> embed encode x_c) <$> embed encode x_i
  | Raise _ => []
  end.

Definition gradient_descent_step (steps : nat) (P : matrix float)
    (grad : option (matrix float)) : nat * matrix float :=
  match grad with
  | None => (S steps, P)
  | Some g =>
      (S steps,
       imap (λ j row,
               imap (λ k x, x - 0.5 * default 0 (g !! j ≫= (.!! k)))%float
                    row) P)
  end.

(** The toy training and validation pairs. *)
Definition toy_train_pairs : list TrainingPair :=
  [(auth_question, auth_snippet, 1); (auth_question, sum_snippet, 0)].
Definition toy_val_pairs : list TrainingPair := [(auth_question, sum_snippet, 0)].

(** The toy trainer, started at the swap matrix, after the training half
    of its first epoch. *)
Definition toy_trained : trainer float nat :=
  {| P := [[0.5; 0.5]; [1; 0]]%float;
     P_grad := Some [[-1; 1]; [0; 0]]%float;
     optimizer := 1;
     calls := [ZeroGrad; Backward (auth_question, auth_snippet, 1);
               Backward (auth_question, sum_snippet, 0); Step];
     stdout := [] |}.

(** ** More of the notebook: loading the dataset (cell 9) *)

(** *** Python strings

    A [string] is read as a Python [str] whose characters are code points
    below 256. *)

Definition newline : ascii := "010"%char.
Definition space : ascii := " "%char.

(** [c.isspace()]. *)
Definition is_space (c : ascii) : bool :=
  bool_decide (N_of_ascii c ∈ [9; 10; 11; 12; 13; 28; 29; 30; 31; 32; 133;
                               160]%N).

Fixpoint lstrip (s : string) : string :=
  match s with
  | EmptyString => EmptyString
  | String c s' => if is_space c then lstrip s' else s
  end.

Fixpoint rstrip (s : string) : string :=
  match s with
  | EmptyString => EmptyString
  | String c s' =>
      match rstrip s' with
      | EmptyString => if is_space c then EmptyString else String c EmptyString
      | r => String c r
      end
  end.

(** [s.strip()]. *)
Definition strip (s : string) : string := rstrip (lstrip s).

(** [s.split(sep)] for a separator of one character: the pieces between
    the separators, empty pieces included; never an empty list. *)
Fixpoint str_split (sep : ascii) (s : string) : list string :=
  match s with
  | EmptyString => [EmptyString]
  | String c s' =>
      if decide (c = sep) then EmptyString :: str_split sep s'
      else match str_split sep s' with
           | [] => [String c EmptyString]
           | piece :: pieces => String c piece :: pieces
           end
  end.

(** [sep.join(pieces)] for a separator of one character. *)
Definition str_join (sep : ascii) (pieces : list string) : string :=
  String.concat (String sep EmptyString) pieces.

(** [l[1:-1]]. *)
Definition slice_1_m1 {A} (l : list A) : list A :=
  take (length l - 2) (drop 1 l).

(** *** ElementTree

    An element has a tag, a text ([None] when it has none) and children;
    [findall] and [find] with a plain tag look at the children only. *)
Unset Elimination Schemes.
Inductive element :=
  | Element (tag : string) (text : option string) (children : list element).
Set Elimination Schemes.

Definition tag (e : element) : string :=
  match e with Element tag _ _ => tag end.
Definition text (e : element) : option string :=
  match e with Element _ text _ => text end.
Definition children (e : element) : list element :=
  match e with Element _ _ children => children end.

Definition findall (name : string) (e : element) : list element :=
  filter (λ child, tag child = name) (children e).

Definition find (name : string) (e : element) : option element :=
  head (findall name e).

(** *** [DatasetParser.parse] *)

(** The [Example] as [parse] builds it: [user_input] is the text of the
    [user_input] element, which is [None] for an element without text. *)
Record ParsedExample := {
  parsed_user_input : option string;
  parsed_snippets : list string;
}.

(** The [filename] of the body of the inner loop; it is computed and not
    used. *)
Definition snippet_filename (snippet_text : string) : option string :=
  let first_line := default EmptyString (head (str_split newline snippet_text)) in
  if decide (1 < length (str_split space first_line))
  then str_split space first_line !! 1
  else None.

(** The [code] of the body of the inner loop. *)
Definition snippet_code (snippet_text : string) : string :=
  let code_lines := slice_1_m1 (str_split newline snippet_text) in
  str_join newline code_lines.

(** The body of the inner loop; [snippet.text.strip()] raises when the
    element has no text. *)
Definition parse_snippet (snippets_list : list string) (snippet : element)
    : result (list string) :=
  match text snippet with
  | None => Raise AttributeError
  | Some snippet_text =>
      let snippet_text := strip snippet_text in
      let filename := snippet_filename snippet_text in
      let code := snippet_code snippet_text in
      Ok (snippets_list ++ [code])
  end.

(** The body of the outer loop; [.text] and [.findall] raise on the
    [None] that [find] returns for a missing child. *)
Definition parse_example (examples : list ParsedExample) (example : element)
    : result (list ParsedExample) :=
  match find "user_input" example with
  | None => Raise AttributeError
  | Some user_input_element =>
      let user_input := text user_input_element in
      match find "snippets" example with
      | None => Raise AttributeError
      | Some snippets_element =>
          snippets_list ←
            for_each parse_snippet (findall "snippet" snippets_element) [];
          Ok (examples ++ [{| parsed_user_input := user_input;
                              parsed_snippets := snippets_list |}])
      end
  end.

Definition parse (root : element) : result (list ParsedExample) :=
  for_each parse_example (findall "example" root) [].

(** *** Reading aids for the parser *)

(** No character of [s] is [c]. *)
Fixpoint lacks (c : ascii) (s : string) : bool :=
  match s with
  | EmptyString => true
  | String c' s' => bool_decide (c' ≠ c) && lacks c s'
  end.

(** All characters of [s] are whitespace. *)
Fixpoint all_space (s : string) : bool :=
  match s with
  | EmptyString => true
  | String c s' => is_space c && all_space s'
  end.

(** [s] begins, and ends, with a character that is not whitespace. *)
Definition starts_solid (s : string) : Prop :=
  ∃ c s', s = String c s' ∧ is_space c = false.
Definition ends_solid (s : string) : Prop :=
  ∃ s' c, s = s' +:+ String c EmptyString ∧ is_space c = false.

(** The document an Example is loaded from: a [user_input] element and a
    [snippets] element with one [snippet] per text. *)
Definition example_element (user_input : string) (snippet_texts : list string)
    : element :=
  Element "example" None
    [Element "user_input" (Some user_input) [];
     Element "snippets" None
       ((λ t, Element "snippet" (Some t) []) <$> snippet_texts)].

(** A fenced code block: a header line, the code, the closing fence. *)
Definition fenced (header code : string) : string :=
  header +:+ String newline (code +:+ String newline "```").

(** A complete example element: it has the two children the parser reads,
    and every snippet has a text. *)
Definition complete_example (example : element) : Prop :=
  is_Some (find "user_input" example) ∧
  ∃ snippets_element,
    find "snippets" example = Some snippets_element ∧
    Forall (λ snippet, is_Some (text snippet))
           (findall "snippet" snippets_element).

(** ** A further law of the scalars *)

(** Multiplication is commutative; it is for the rationals and for IEEE
    binary64. *)
Class MulCommutative (T : Type) `{Arith T} : Prop :=
  fmul_comm (x y : T) : (x * y = y * x)%num.

(** ** More of the notebook: the split (cell 12) *)

(** [int(x)] for a finite float [x]: truncation toward zero. *)
Definition float_trunc (x : float) : Z :=
  match Prim2SF x with
  | S754_finite s m e =>
      let magnitude :=
        if (0 <=? e)%Z then (Z.pos m * 2 ^ e)%Z
        else (Z.pos m / 2 ^ (- e))%Z in
      if s then (- magnitude)%Z else magnitude
  | _ => 0%Z
  end.

(** [int(0.8 * n)], computed in binary64 as Python does; the literal is
    the float nearest to 0.8. *)
Definition split_index (n : nat) : nat :=
  Z.to_nat (float_trunc (0x1.999999999999ap-1 * of_nat n)%float).

(** [np.random.shuffle] leaves the list in an order it chooses; [shuffle]
    is that reordering.  The two slices are [example_pairs[:split_index]]
    and [example_pairs[split_index:]]. *)
Definition split_pairs (shuffle : list TrainingPair → list TrainingPair)
    (example_pairs : list TrainingPair)
    : list TrainingPair * list TrainingPair :=
  let example_pairs := shuffle example_pairs in
  let split_index := split_index (length example_pairs) in
  let train_pairs := take split_index example_pairs in
  let val_pairs := drop split_index example_pairs in
  (train_pairs, val_pairs).

(** The check that [int(0.8 * k)] is [4 * k / 5], for [fuel] integers
    from [k] on. *)
Fixpoint split_index_exact_from (k : Z) (fuel : nat) : bool :=
  match fuel with
  | 0 => true
  | S fuel =>
      (float_trunc (0x1.999999999999ap-1
                    * PrimFloat.of_uint63 (Uint63.of_Z k))%float
       =? 4 * k / 5)%Z
      && split_index_exact_from (k + 1) fuel
  end.

(** A header line, a piece of code and the whitespace around a snippet
    text, for running the parser. *)
Definition auth_header : string := "```python auth.py".
Definition auth_code : string :=
  "def authenticate():" +:+ String newline "    return True".
Definition padding : string := String newline "    ".

(** A strategy that knows the question about addition only. *)
Definition addition_only_strategy (query : string)
    : result (list (string * float)) :=
  if decide (query = sum_question) then Ok [(sum_snippet, 1%float)]
  else Raise RuntimeError.

(** * Proofs *)

(** ** The rationals satisfy the laws *)

Section Qc_instances.
Local Open Scope Qc_scope.

Lemma Qc_fle (x y : Qc) : fle x y ↔ x ≤ y.
Proof. unfold fle; simpl. apply bool_decide_eq_true. Qed.

Lemma Qc_of_nat_S (k : nat) : Qc_of_nat (S k) = Qc_of_nat k + 1.
Proof.
  apply Qc_is_canon. unfold Qc_of_nat. simpl.
  rewrite !Qred_correct, Nat2Z.inj_succ, <- Z.add_1_r, inject_Z_plus.
  reflexivity.
Qed.

Lemma Qc_of_nat_le (m n : nat) : (m ≤ n)%nat → Qc_of_nat m ≤ Qc_of_nat n.
Proof.
  intros Hmn. unfold Qcle, Qc_of_nat; simpl. rewrite !Qred_correct.
  rewrite <- Zle_Qle. lia.
Qed.

Lemma Qc_of_nat_pos (n : nat) : (0 < n)%nat → 0 < Qc_of_nat n.
Proof.
  intros Hn. unfold Qclt, Qc_of_nat; simpl. rewrite !Qred_correct.
  change 0%Q with (inject_Z 0). rewrite <- Zlt_Qlt. lia.
Qed.

Lemma Qc_of_nat_nonzero (n : nat) : (0 < n)%nat → Qc_of_nat n ≠ 0.
Proof.
  intros Hn Heq. apply (Qclt_not_eq _ _ (Qc_of_nat_pos n Hn)). by rewrite Heq.
Qed.

#[export] Instance Qc_zero_one : ZeroOneLaws Qc.
Proof.
  split; simpl; change (Qc_of_nat 0) with 0; change (Qc_of_nat 1) with 1.
  - apply Qcmult_1_r.
  - apply Qcplus_0_l.
  - intros x y _. apply Qcplus_0_l.
  - intros x y _ _. by rewrite Qcmult_0_r, Qcplus_0_r.
  - intros x y z _. by rewrite Qcplus_0_l.
Qed.

Lemma Qc_div_le_compat (x y : Qc) (n : nat) :
  (0 < n)%nat → x ≤ y → x / Qc_of_nat n ≤ y / Qc_of_nat n.
Proof.
  intros Hn Hxy. unfold Qcdiv. apply Qcmult_le_compat_r; [done|].
  by apply Qclt_le_weak, Qcinv_pos, Qc_of_nat_pos.
Qed.

#[export] Instance Qc_counting : CountingLaws Qc.
Proof.
  split.
  - intros m n Hmn. apply Qc_fle, Qc_of_nat_le, Hmn.
  - intros x y. rewrite !Qc_fle. simpl. change (Qc_of_nat 0) with 0.
    intros Hx Hy. rewrite <- (Qcplus_0_l 0). by apply Qcplus_le_compat.
  - intros x y k. rewrite !Qc_fle. simpl. change (Qc_of_nat 1) with 1.
    rewrite Qc_of_nat_S. intros Hx Hy. by apply Qcplus_le_compat.
  - intros x n Hn. rewrite !Qc_fle. simpl. change (Qc_of_nat 0) with 0.
    intros Hx. rewrite <- (Qcmult_0_l (/ Qc_of_nat n)).
    by apply Qc_div_le_compat.
  - intros x k n Hkn Hn. rewrite !Qc_fle. simpl.
    change (Qc_of_nat 1) with 1. intros Hx.
    rewrite <- (Qcmult_inv_r (Qc_of_nat n)) by (by apply Qc_of_nat_nonzero).
    apply Qc_div_le_compat; [done|]. etrans; [done|]. by apply Qc_of_nat_le.
  - intros k. simpl. by rewrite (Qc_of_nat_S k).
  - intros n Hn. simpl. change (Qc_of_nat 1) with 1.
    by apply Qcmult_inv_r, Qc_of_nat_nonzero.
Qed.
End Qc_instances.

(** ** IEEE binary64 satisfies the laws of 0 and 1 *)

(** *** Rounding in the IEEE specification, at any precision *)

Section rounding.
Local Open Scope Z_scope.
Variables prec emax : Z.
Hypothesis prec_pos : 0 < prec.

(** Dropping the last bit of a mantissa of two bits or more leaves a
    mantissa, one bit shorter. *)
Lemma shr_1_pos (mrs : shr_record) (m : positive) :
  shr_m mrs = Z.pos m → 1 < Z.pos (digits2_pos m) →
  ∃ m', shr_m (shr_1 mrs) = Z.pos m' ∧
        Z.pos (digits2_pos m') = Z.pos (digits2_pos m) - 1.
Proof.
  destruct mrs as [mm r s]. simpl. intros -> Hm.
  destruct m as [m|m|]; simpl in *; [exists m; lia | exists m; lia | lia].
Qed.

Lemma iter_shr_1_pos (n : positive) : ∀ (mrs : shr_record) (m : positive),
  shr_m mrs = Z.pos m → Z.pos n < Z.pos (digits2_pos m) →
  ∃ m', shr_m (SpecFloat.iter_pos shr_1 n mrs) = Z.pos m' ∧
        Z.pos (digits2_pos m') = Z.pos (digits2_pos m) - Z.pos n.
Proof.
  induction n as [n IH|n IH|]; intros mrs m Hm Hn; simpl.
  - destruct (shr_1_pos mrs m Hm) as (m1 & Hm1 & Hd1); [lia|].
    destruct (IH _ m1 Hm1) as (m2 & Hm2 & Hd2); [lia|].
    destruct (IH _ m2 Hm2) as (m3 & Hm3 & Hd3); [lia|].
    exists m3. split; [done|lia].
  - destruct (IH _ m Hm) as (m2 & Hm2 & Hd2); [lia|].
    destruct (IH _ m2 Hm2) as (m3 & Hm3 & Hd3); [lia|].
    exists m3. split; [done|lia].
  - apply shr_1_pos; [done|lia].
Qed.

Lemma shr_record_of_loc_m (m : Z) (l : location) :
  shr_m (shr_record_of_loc m l) = m.
Proof. by destruct l as [|[]]. Qed.

(** Above the least exponent, fewer bits are shifted out than the
    mantissa has. *)
Lemma shr_fexp_pos (m : positive) (e : Z) (l : location) :
  SpecFloat.emin prec emax ≤ e →
  ∃ mrs m' e', shr_fexp prec emax (Z.pos m) e l = (mrs, e') ∧
               shr_m mrs = Z.pos m' ∧ SpecFloat.emin prec emax ≤ e'.
Proof.
  intros He. unfold shr_fexp, shr.
  destruct (fexp prec emax (Zdigits2 (Z.pos m) + e) - e) as [|n|n] eqn:Hn.
  - eexists _, m, e. by rewrite shr_record_of_loc_m.
  - unfold fexp in Hn. simpl in Hn.
    destruct (iter_shr_1_pos n (shr_record_of_loc (Z.pos m) l) m)
      as (m' & Hm' & _); [apply shr_record_of_loc_m | lia |].
    eexists _, m', _. split; [done|]. split; [done|lia].
  - eexists _, m, e. by rewrite shr_record_of_loc_m.
Qed.

Lemma round_nearest_even_pos (m : positive) (l : location) :
  ∃ m', round_nearest_even (Z.pos m) l = Z.pos m'.
Proof.
  destruct l as [|[]]; simpl; eauto. destruct m; simpl; eauto.
Qed.

(** Rounding a mantissa whose exponent is not below the least one never
    yields a zero. *)
Lemma binary_round_aux_nonzero (s s' : bool) (m : positive) (e : Z)
    (l : location) :
  SpecFloat.emin prec emax ≤ e →
  binary_round_aux prec emax s (Z.pos m) e l ≠ S754_zero s'.
Proof.
  intros He. unfold binary_round_aux.
  destruct (shr_fexp_pos m e l He) as (mrs1 & m1 & e1 & -> & Hm1 & He1).
  rewrite Hm1. destruct (round_nearest_even_pos m1 (loc_of_shr_record mrs1))
    as [m2 ->].
  destruct (shr_fexp_pos m2 e1 loc_Exact He1) as (mrs3 & m3 & e3 & -> & -> & _).
  by destruct (_ <=? _).
Qed.

Lemma binary_round_nonzero (s s' : bool) (m : positive) (e : Z) :
  SpecFloat.emin prec emax ≤ e →
  binary_round prec emax s m e ≠ S754_zero s'.
Proof.
  intros He. unfold binary_round, shl_align.
  destruct (fexp prec emax (Z.pos (digits2_pos m) + e) - e) eqn:Hn;
    apply binary_round_aux_nonzero; try done.
  unfold fexp. lia.
Qed.

Lemma bounded_emin (m : positive) (e : Z) :
  bounded prec emax m e = true → SpecFloat.emin prec emax ≤ e.
Proof.
  unfold bounded, canonical_mantissa, fexp.
  intros [Hc%Z.eqb_eq _]%andb_prop. lia.
Qed.

(** The sum of two numbers other than zero is not the negative zero. *)
Lemma SFadd_finite_not_neg_zero (sx sy : bool) (mx my : positive) (ex ey : Z) :
  bounded prec emax mx ex = true → bounded prec emax my ey = true →
  SFadd prec emax (S754_finite sx mx ex) (S754_finite sy my ey)
  ≠ S754_zero true.
Proof.
  intros Hx%bounded_emin Hy%bounded_emin. unfold SFadd, binary_normalize.
  destruct (_ + _); [done| |]; apply binary_round_nonzero; lia.
Qed.

(** A sum is the negative zero only when its first term is. *)
Lemma SFadd_not_neg_zero (x y : spec_float) :
  SpecFloat.valid_binary prec emax x = true →
  SpecFloat.valid_binary prec emax y = true →
  x ≠ S754_zero true → SFadd prec emax x y ≠ S754_zero true.
Proof.
  intros Hx Hy Hneg.
  destruct x as [[]|[]| |sx mx ex], y as [[]|[]| |sy my ey]; try done.
  by apply SFadd_finite_not_neg_zero.
Qed.

Lemma SFadd_zero_l (x : spec_float) :
  x ≠ S754_zero true → SFadd prec emax (S754_zero false) x = x.
Proof. destruct x as [[]| | |]; simpl; congruence. Qed.

Lemma SFadd_zero_r (x : spec_float) (s : bool) :
  x ≠ S754_zero true → SFadd prec emax x (S754_zero s) = x.
Proof. destruct x as [[]|[]| |], s; simpl; congruence. Qed.

(** A finite number times zero is a zero. *)
Lemma SFmul_finite_zero (x : spec_float) :
  x ≠ S754_nan → (∀ s, x ≠ S754_infinity s) →
  ∃ s, SFmul prec emax x (S754_zero false) = S754_zero s.
Proof.
  destruct x as [s|s| |s m e]; simpl; intros Hnan Hinf; eauto.
  - by destruct (Hinf s).
  - done.
Qed.

(** The sign of a zero factor does not show in a sum that is not the
    negative zero. *)
Lemma SFmul_zero_sign (z y : spec_float) :
  z ≠ S754_zero true →
  SFadd prec emax z (SFmul prec emax (S754_zero false) y)
  = SFadd prec emax z (SFmul prec emax (S754_zero true) y).
Proof.
  intros Hz. destruct y as [s|s| |s m e]; simpl; try done;
    by rewrite !SFadd_zero_r.
Qed.
End rounding.

(** *** Binary64 *)

Section float_instances.
Local Open Scope Z_scope.

(** One is [2^52 * 2^-52]; the product of a mantissa with [2^52] is
    shifted back by 52 bits, all of them zero. *)
Lemma SF64mul_1_r (x : spec_float) :
  SpecFloat.valid_binary prec emax x = true →
  SF64mul x (S754_finite false 4503599627370496 (-52)) = x.
Proof.
  destruct x as [s|s| |s m e]; simpl; [by destruct s..|done|].
  intros [Hc%Z.eqb_eq He%Z.leb_le]%andb_prop.
  unfold SF64mul, SFmul. rewrite xorb_false_r, Pos.mul_comm.
  unfold binary_round_aux, shr_fexp.
  let shifted := eval cbv in (4503599627370496 * m)%positive in
  change (4503599627370496 * m)%positive with shifted.
  cbn [Zdigits2 digits2_pos shr_record_of_loc].
  match goal with
  | |- context [fexp prec emax ?a] =>
      replace a with (Z.pos (digits2_pos m) + e) by lia
  end.
  rewrite Hc. replace (e - (e + -52)) with 52 by lia.
  cbn [shr SpecFloat.iter_pos shr_1 orb shr_m loc_of_shr_record
       round_nearest_even shr_record_of_loc Zdigits2].
  replace (e + -52 + 52) with e by lia.
  rewrite Hc, Z.sub_diag. cbn [shr shr_m].
  by rewrite (proj2 (Z.leb_le _ _) He).
Qed.

Lemma float_not_neg_zero (x : float) :
  (0 + x)%float = x ↔ Prim2SF x ≠ S754_zero true.
Proof.
  split.
  - intros Hx Hneg. apply (f_equal Prim2SF) in Hx.
    rewrite add_spec, Hneg in Hx. discriminate.
  - intros Hx. apply Prim2SF_inj. rewrite add_spec.
    by apply (SFadd_zero_l prec emax).
Qed.

Lemma float_finite (x : float) :
  finite x → Prim2SF x ≠ S754_nan ∧ ∀ s, Prim2SF x ≠ S754_infinity s.
Proof.
  unfold finite, float_finiteness, is_finite, is_nan, is_infinity.
  rewrite !FloatAxioms.eqb_spec, abs_spec.
  change (Prim2SF infinity) with (S754_infinity false).
  destruct (Prim2SF x) as [s|s| |s m e]; try done.
  by destruct s.
Qed.

#[export] Instance float_zero_one : ZeroOneLaws float.
Proof.
  split.
  - intros x. apply Prim2SF_inj. simpl. rewrite mul_spec.
    apply SF64mul_1_r, Prim2SF_valid.
  - reflexivity.
  - intros x y. change (f0 : float) with 0%float. simpl.
    rewrite !float_not_neg_zero, add_spec. intros Hx.
    apply (SFadd_not_neg_zero prec emax); [done| apply Prim2SF_valid..|done].
  - intros x y [Hnan Hinf]%float_finite.
    change (f0 : float) with 0%float. simpl. rewrite float_not_neg_zero.
    intros Hy. apply Prim2SF_inj. rewrite add_spec, mul_spec.
    destruct (SFmul_finite_zero prec emax (Prim2SF x) Hnan Hinf) as [s Hs].
    unfold SF64mul. change (Prim2SF 0) with (S754_zero false).
    rewrite Hs. by apply SFadd_zero_r.
  - intros x y z. change (f0 : float) with 0%float. simpl.
    rewrite float_not_neg_zero. intros Hz.
    destruct (Prim2SF x) as [[]| | |] eqn:Hx;
      [|by rewrite (proj2 (float_not_neg_zero x)) by (by rewrite Hx)..].
    apply Prim2SF_inj. rewrite !add_spec, !mul_spec, add_spec, Hx.
    by apply (SFmul_zero_sign prec emax).
Qed.
End float_instances.


(** ** Exceptions and loops *)

Lemma bind_Ok {A B} (m : result A) (f : A → result B) (b : B) :
  m ≫= f = Ok b ↔ ∃ a, m = Ok a ∧ f a = Ok b.
Proof.
  destruct m as [a|e]; simpl; split.
  - eauto.
  - by intros (a' & [= ->] & ?).
  - done.
  - by intros (? & ? & ?).
Qed.

(** ** Tensors *)

Section tensor_facts.
Context {T : Type} `{ZeroOneLaws T}.
Local Open Scope num_scope.

Lemma unit_row_lookup (n j k : nat) :
  default f0 (unit_row n j !! k)
  = if decide (j = k ∧ (k < n)%nat) then f1 else f0.
Proof.
  unfold unit_row. rewrite list_lookup_fmap.
  destruct (decide (k < n)%nat) as [Hk|Hk].
  - rewrite lookup_seq_lt by done. simpl.
    destruct (decide (j = k)) as [->|Hne].
    + by rewrite decide_True by lia.
    + by rewrite decide_False by lia.
  - rewrite lookup_seq_ge by lia. simpl. by rewrite decide_False by lia.
Qed.

Lemma fadd_0_idem (x : T) : f0 + (f0 + x) = f0 + x.
Proof. apply fadd_0_sum, fadd_0_0. Qed.

(** Column [k] of the rows [s, s+1, ...] of the identity, summed against
    a finite [a]: the rows other than row [k] contribute zeros, which
    leave the sum as it is. *)
Lemma identity_column_skip (n k s : nat) (a : vector T) (acc : T) :
  (k < s ∨ n ≤ k)%nat → Forall finite a → f0 + acc = acc →
  foldl (λ acc xr, acc + xr.1 * default f0 (xr.2 !! k)) acc
        (zip a (unit_row n <$> seq s (length a))) = acc.
Proof.
  revert s acc. induction a as [|x a IH]; intros s acc Hk Ha Hacc; simpl;
    [done|].
  inversion_clear Ha as [|?? Hx Ha'].
  rewrite unit_row_lookup. rewrite decide_False by lia.
  rewrite fadd_zero_product by done. apply IH; [lia|done|done].
Qed.

Lemma identity_column_pick (n k s : nat) (a : vector T) :
  (s ≤ k)%nat → (k < n)%nat → Forall finite a →
  foldl (λ acc xr, acc + xr.1 * default f0 (xr.2 !! k)) f0
        (zip a (unit_row n <$> seq s (length a)))
  = f0 + default f0 (a !! (k - s)).
Proof.
  revert s. induction a as [|x a IH]; intros s Hsk Hkn Ha; simpl.
  { by rewrite fadd_0_0. }
  inversion_clear Ha as [|?? Hx Ha'].
  rewrite unit_row_lookup. destruct (decide (s = k)) as [->|Hne].
  - rewrite decide_True by done. rewrite fmul_1_r.
    rewrite identity_column_skip; [|lia|done|apply fadd_0_idem].
    by rewrite Nat.sub_diag.
  - rewrite decide_False by lia.
    rewrite fadd_zero_product; [|done|apply fadd_0_0].
    rewrite IH by (lia || done).
    by replace (k - s) with (S (k - S s)) by lia.
Qed.

Lemma ncols_eye (n : nat) : ncols (eye (T:=T) n) = n.
Proof.
  destruct n as [|n]; [done|].
  unfold ncols, eye, unit_row. simpl. by rewrite length_fmap, length_seq.
Qed.

(** [a @ torch.eye(n)] for a finite [a]: entry [k] is [0 + a[k]], which
    is [a[k]] with a negative zero replaced by the positive one. *)
Lemma vecmat_eye (a : vector T) :
  Forall finite a → vecmat a (eye (length a)) = Ok (fadd f0 <$> a).
Proof.
  intros Ha. unfold vecmat. rewrite decide_True; last first.
  { unfold eye. by rewrite length_fmap, length_seq. }
  f_equal. rewrite ncols_eye. apply list_eq. intros k.
  rewrite !list_lookup_fmap. destruct (decide (k < length a)%nat) as [Hk|Hk].
  - rewrite lookup_seq_lt by done. simpl. unfold eye.
    rewrite identity_column_pick by (lia || done). rewrite Nat.sub_0_r.
    by destruct (lookup_lt_is_Some_2 a k Hk) as [x ->].
  - rewrite lookup_seq_ge by lia. by rewrite lookup_ge_None_2 by lia.
Qed.

(** In a dot product, which starts from the positive zero, the sign of a
    zero entry does not show. *)
Lemma dot_sum_plus_zero (a b : vector T) (acc : T) :
  f0 + acc = acc →
  foldl (λ acc xy, acc + xy.1 * xy.2) acc (zip (fadd f0 <$> a) b)
  = foldl (λ acc xy, acc + xy.1 * xy.2) acc (zip a b).
Proof.
  revert b acc. induction a as [|x a IH]; intros [|y b] acc Hacc; simpl;
    try done.
  rewrite fmul_zero_sign by done. apply IH. by apply fadd_0_sum.
Qed.

Lemma dot_plus_zero (a b : vector T) : dot (fadd f0 <$> a) b = dot a b.
Proof.
  unfold dot. rewrite length_fmap. case_decide; [|done].
  f_equal. apply dot_sum_plus_zero, fadd_0_0.
Qed.
End tensor_facts.

(** ** Similarity *)

Section similarity_facts.
Context {T : Type} `{ZeroOneLaws T}.
Variable encode : string → vector T.

End similarity_facts.

(** ** Average precision *)

Section ap_structure.
Context {T : Type} `{Arith T}.
Local Open Scope num_scope.
Implicit Types (relevant_set : gset string) (items : list (string * T)).

(** The scores are never read. *)
Lemma ap_loop_scores_irrelevant relevant_set items1 items2 i s c :
  items1.*1 = items2.*1 →
  ap_loop relevant_set items1 i s c = ap_loop relevant_set items2 i s c.
Proof.
  revert items2 i s c.
  induction items1 as [|[item1 score1] items1 IH];
    intros [|[item2 score2] items2] i s c Heq; simplify_eq/=; [done|].
  case_decide; by apply IH.
Qed.

Lemma ap_loop_app relevant_set items1 items2 i s c :
  ap_loop relevant_set (items1 ++ items2) i s c
  = ap_loop relevant_set items2 (i + length items1)
            (ap_loop relevant_set items1 i s c).1
            (ap_loop relevant_set items1 i s c).2.
Proof.
  revert i s c. induction items1 as [|[item score] items1 IH]; intros i s c.
  - simpl. by rewrite Nat.add_0_r.
  - simpl. replace (i + S (length items1))%nat with (S i + length items1)%nat
      by lia.
    case_decide; apply IH.
Qed.

(** Items outside the relevant set leave the running sum and count as
    they are. *)
Lemma ap_loop_misses relevant_set items i s c :
  Forall (λ it, it.1 ∉ relevant_set) items →
  ap_loop relevant_set items i s c = (s, c).
Proof.
  intros Hmiss. revert i. induction Hmiss as [|[item score] items Hit _ IH];
    intros i; simpl; [done|].
  by rewrite decide_False.
Qed.

End ap_structure.

Section ap_bounds.
Context {T : Type} `{CountingLaws T}.
Local Open Scope num_scope.
Implicit Types (relevant_set : gset string) (items : list (string * T)).




End ap_bounds.

Section ap_theorems.
Context {T : Type} `{CountingLaws T}.
Local Open Scope num_scope.


End ap_theorems.

Section ap_scores.
Context {T : Type} `{Arith T}.

(** C10.  [average_precision] reads the retrieved list only through the
    order of its passages: two retrieved lists with the same passages in
    the same order get the same value, whatever scores they carry. *)
Theorem average_precision_ignores_scores (relevant_items : list string)
    (retrieved1 retrieved2 : list (string * T)) :
  retrieved1.*1 = retrieved2.*1 →
  average_precision relevant_items retrieved1
  = average_precision relevant_items retrieved2.
Proof.
  intros Heq. unfold average_precision.
  by rewrite (ap_loop_scores_irrelevant _ retrieved1 retrieved2).
Qed.
End ap_scores.

(** ** Training pairs *)

Section pairs_facts.
Context {T : Type} `{Arith T}.
Variable encode : string → vector T.

Lemma similarity_defined (x_i x_c : string) :
  length (encode x_i) = length (encode x_c) →
  ∃ score, similarity encode x_i x_c = Ok score.
Proof.
  intros Hlen. unfold similarity, dot, embed. rewrite decide_True by done.
  eauto.
Qed.

Lemma label_pair_Ok (example : Example) (acc : list TrainingPair) (snippet : string)
    (score : T) :
  similarity encode (user_input example) snippet = Ok score →
  label_pair encode example acc snippet
  = Ok (acc ++ [(user_input example, snippet,
                 if fltb threshold score then 1 else 0)]).
Proof.
  intros Hs. unfold label_pair. rewrite Hs. simpl.
  by destruct (fltb threshold score).
Qed.

Lemma label_pairs_loop (example : Example) (acc : list TrainingPair) :
  (∀ text, length (encode text) = dim encode) →
  ∃ new,
    for_each (label_pair encode example) (snippets example) acc
      = Ok (acc ++ new) ∧
    Forall2 (labelled_by_threshold encode)
            ((λ snippet, (user_input example, snippet)) <$> snippets example)
            new.
Proof.
  intros Hdim. revert acc.
  induction (snippets example) as [|snippet rest IH]; intros acc;
    cbn [for_each fmap list_fmap].
  { exists []. by rewrite app_nil_r. }
  destruct (similarity_defined (user_input example) snippet) as [score Hs].
  { by rewrite !Hdim. }
  rewrite (label_pair_Ok _ _ _ _ Hs). cbn [mbind result_bind].
  destruct (IH (acc ++ [(user_input example, snippet,
                          if fltb threshold score then 1 else 0)]))
    as (new & -> & Hnew).
  eexists (_ :: new). split.
  - by rewrite <- (assoc_L (++)).
  - constructor; [|done]. by exists score.
Qed.

(** C1.  When all embeddings have the same length, [example_pairs]
    returns one pair for every passage of every Example, in dataset
    order, each pairing the passage with the query of its own Example;
    the pair's label is 1 when [similarity(query, passage) > 0.7] and 0
    otherwise. *)
Theorem example_pairs_labels (dataset : list Example) :
  (∀ text, length (encode text) = dim encode) →
  ∃ pairs,
    example_pairs encode dataset = Ok pairs ∧
    Forall2 (labelled_by_threshold encode) (own_passages dataset) pairs.
Proof.
  intros Hdim. unfold example_pairs.
  cut (∀ acc, ∃ new,
         for_each (λ example_pairs example,
                     for_each (label_pair encode example) (snippets example)
                              example_pairs) dataset acc = Ok (acc ++ new) ∧
         Forall2 (labelled_by_threshold encode) (own_passages dataset) new).
  { intros Hloop. destruct (Hloop []) as (new & ? & ?). by exists new. }
  induction dataset as [|example dataset IH]; intros acc; simpl.
  { exists []. by rewrite app_nil_r. }
  destruct (label_pairs_loop example acc Hdim) as (new1 & -> & Hnew1). simpl.
  destruct (IH (acc ++ new1)) as (new2 & -> & Hnew2).
  exists (new1 ++ new2). split; [by rewrite (assoc_L (++))|].
  unfold own_passages. simpl. apply Forall2_app; [|done].
  clear -Hnew1. revert new1 Hnew1.
  induction (snippets example) as [|s rest IHs]; intros new1 Hnew1; simpl in *.
  - by inversion Hnew1.
  - inversion Hnew1; subst. constructor; [done|]. by apply IHs.
Qed.
End pairs_facts.

(** ** Retrieval *)

Section retrieval_facts.
Context {T : Type} `{Arith T}.
Variable encode : string → vector T.

(** [all_snippets] is the concatenation of the passage lists. *)
Lemma all_snippets_concat (dataset : list Example) :
  all_snippets dataset = concat (snippets <$> dataset).
Proof.
  unfold all_snippets.
  cut (∀ acc, foldl (λ all_snippets example,
                       foldl (λ all_snippets snippet,
                                all_snippets ++ [snippet])
                             all_snippets (snippets example)) acc dataset
              = acc ++ concat (snippets <$> dataset)).
  { intros Hloop. apply (Hloop []). }
  induction dataset as [|example dataset IH]; intros acc; simpl.
  { by rewrite app_nil_r. }
  rewrite IH, (assoc_L (++)). f_equal.
  generalize (snippets example). clear. intros l. revert acc.
  induction l as [|s l IH]; intros acc; simpl; [by rewrite app_nil_r|].
  by rewrite IH, <- (assoc_L (++)).
Qed.

(** The retrieved list holds the corpus in corpus order, whatever the
    scores and whatever the matrix. *)
Lemma retrieve_keeps_corpus_order (P : matrix T) (corpus : list string)
    (user_input : string) (ranked : list (string * T)) :
  retrieve_relevant_snippets encode P corpus user_input = Ok ranked →
  ranked.*1 = corpus.
Proof.
  unfold retrieve_relevant_snippets.
  intros (projected & _ & Hloop)%bind_Ok. revert Hloop.
  cut (∀ acc,
         for_each (λ similarities snippet,
                     similarity ← dot projected (embed encode snippet);
                     Ok (similarities ++ [(snippet, similarity)]))
                  corpus acc = Ok ranked →
         ranked.*1 = acc.*1 ++ corpus).
  { intros Hgen Hloop. apply (Hgen [] Hloop). }
  induction corpus as [|snippet corpus IH]; intros acc; simpl.
  { intros [= <-]. by rewrite app_nil_r. }
  intros (acc' & (score & _ & [= <-])%bind_Ok & Hrest)%bind_Ok.
  rewrite (IH _ Hrest), fmap_app, <- (assoc_L (++)). done.
Qed.
End retrieval_facts.

(** ** Evaluation *)

Section evaluation_facts.
Context {T : Type} `{Arith T}.
Local Open Scope num_scope.

Lemma evaluate_loop (retrieval_strategy : string → result (list (string * T)))
    (dataset : list Example) (retrieved : list (list (string * T)))
    (total_ap : T) (num_queries : nat) :
  Forall2 (λ example r, retrieval_strategy (user_input example) = Ok r)
          dataset retrieved →
  for_each (λ '(total_ap, num_queries) example,
              retrieved ← retrieval_strategy (user_input example);
              let ap := average_precision (snippets example) retrieved in
              Ok (total_ap + ap, S num_queries))
           dataset (total_ap, num_queries)
  = Ok (foldl fadd total_ap
              (zip_with (λ example r, average_precision (snippets example) r)
                        dataset retrieved),
        (num_queries + length dataset)%nat).
Proof.
  intros Hall. revert total_ap num_queries.
  induction Hall as [|example r dataset retrieved Hr _ IH];
    intros total_ap num_queries; simpl.
  - by rewrite Nat.add_0_r.
  - rewrite Hr. simpl. rewrite IH. do 2 f_equal. lia.
Qed.

(** C3.  When the retrieval strategy returns a list for the query of
    every Example, [evaluate_retrieval_strategy] returns a string: the
    text ["Mean Average Precision (MAP): "] followed by the mean of the
    Examples' average-precision scores printed with four decimals, the
    mean of no scores being 0.  It raises nothing of its own, also for
    an empty dataset. *)
Theorem evaluate_retrieval_strategy_string (dataset : list Example)
    (retrieval_strategy : string → result (list (string * T)))
    (retrieved : list (list (string * T))) :
  Forall2 (λ example r, retrieval_strategy (user_input example) = Ok r)
          dataset retrieved →
  evaluate_retrieval_strategy dataset retrieval_strategy
  = Ok (PyStr ("Mean Average Precision (MAP): " +:+
               fmt4 (mean (zip_with
                             (λ example r,
                                average_precision (snippets example) r)
                             dataset retrieved)))).
Proof.
  intros Hall. unfold evaluate_retrieval_strategy.
  rewrite (evaluate_loop _ _ retrieved) by done. simpl.
  do 4 f_equal. unfold mean.
  pose proof (Forall2_length _ _ _ Hall) as Hlen.
  destruct Hall as [|example r dataset retrieved Hr Hall]; [done|].
  rewrite decide_True by (simpl; lia). rewrite decide_False by done.
  simpl. by rewrite length_zip_with, <- (Forall2_length _ _ _ Hall),
    Nat.min_id.
Qed.
End evaluation_facts.

(** ** Embedding lookups *)

Section lookup_facts.
Context {T : Type}.
Variable encode : string → vector T.

(** The traced [embed] returns what [embed] returns. *)
Lemma embed_traced_value (text : string) (calls : list string) :
  (embed_traced encode text calls).1 = embed encode text.
Proof. done. Qed.

(** C4.  [embed] keeps no cache: every lookup, the first as well as a
    repeated one, calls the model once and returns what the model
    returns.  After a run of lookups the model has been called once per
    lookup, in order. *)
Theorem lookups_call_model_every_time (texts calls : list string) :
  lookups encode texts calls = (encode <$> texts, calls ++ texts).
Proof.
  revert calls. induction texts as [|text texts IH]; intros calls; simpl.
  - by rewrite app_nil_r.
  - rewrite IH. by rewrite <- (assoc_L (++)).
Qed.
End lookup_facts.

(** ** Training *)

Section training_facts.
Context {T : Type} `{Arith T}.
Local Open Scope num_scope.
Variable encode : string → vector T.
Variable loss_func : T → T → T.
Variable loss_gradient : TrainingPair → matrix T → matrix T.
Variable Adam : Type.
Variable adam_step : Adam → matrix T → option (matrix T) → Adam * matrix T.
Variables train_pairs val_pairs : list TrainingPair.

(** Every embedding has [dim] entries. *)
Hypothesis encode_dim : ∀ text, length (encode text) = dim encode.

Local Abbreviation d := (dim encode).
Local Abbreviation pair_loss' := (pair_loss encode loss_func).
Local Abbreviation train_phase' :=
  (train_phase encode loss_func loss_gradient adam_step train_pairs).
Local Abbreviation validation_phase' :=
  (validation_phase encode loss_func val_pairs).
Local Abbreviation run_epoch' :=
  (run_epoch encode loss_func loss_gradient adam_step train_pairs val_pairs).
Local Abbreviation training' :=
  (training encode loss_func loss_gradient adam_step train_pairs val_pairs).

Lemma ncols_has_shape (M : matrix T) (r c : nat) :
  has_shape r c M → r = c → ncols M = c.
Proof.
  intros [Hrows Hcols] ->. unfold ncols. destruct Hcols; simpl in *; done.
Qed.

(** On a matrix of the embedding dimension the prediction is defined. *)
Lemma similarity_with_projection_defined (x_i x_c : string) (M : matrix T) :
  has_shape d d M →
  ∃ prediction, similarity_with_projection encode x_i x_c M = Ok prediction.
Proof.
  intros HM. unfold similarity_with_projection, vecmat, dot, embed.
  rewrite decide_True by (rewrite encode_dim; symmetry; apply HM).
  simpl. rewrite decide_True; [eauto|].
  by rewrite length_fmap, length_seq, (ncols_has_shape M d d), encode_dim.
Qed.

Lemma pair_loss_defined (M : matrix T) (p : TrainingPair) :
  has_shape d d M → ∃ loss, pair_loss' M p = Ok loss.
Proof.
  intros HM. destruct p as [[x_i x_c] y]. unfold pair_loss.
  destruct (similarity_with_projection_defined x_i x_c M HM) as [v ->].
  simpl. eauto.
Qed.

Lemma accumulate_grad_sum (g : matrix T) (gs : list (matrix T)) :
  foldl accumulate (Some g) gs = Some (foldl madd g gs).
Proof. revert g. induction gs as [|g' gs IH]; intros g; simpl; [done|]. apply IH. Qed.

Lemma accumulate_from_none (gs : list (matrix T)) :
  foldl accumulate None gs = grad_sum gs.
Proof. destruct gs as [|g gs]; [done|]. apply accumulate_grad_sum. Qed.

(** The loop over the training pairs: one [backward] per pair, all at the
    same [P]; nothing else changes. *)
Lemma train_loop (pairs : list TrainingPair) (st : trainer T Adam) :
  has_shape d d (P st) →
  for_each (λ st p, loss ← pair_loss' (P st) p;
                    Ok (backward loss_gradient p st)) pairs st
  = Ok {| P := P st;
          P_grad := foldl accumulate (P_grad st)
                          ((λ p, loss_gradient p (P st)) <$> pairs);
          optimizer := optimizer st;
          calls := calls st ++ (Backward <$> pairs);
          stdout := stdout st |}.
Proof.
  revert st. induction pairs as [|p pairs IH]; intros st HP; simpl.
  - rewrite app_nil_r. by destruct st.
  - destruct (pair_loss_defined (P st) p HP) as [loss ->]. simpl.
    rewrite IH by done. simpl. by rewrite <- (assoc_L (++)).
Qed.

(** The validation loop hands back the trainer it was given. *)
Lemma validation_loop_frame (pairs : list TrainingPair) (st st' : trainer T Adam)
    (val_loss val_loss' : T) :
  for_each (λ '(st, val_loss) p,
              loss ← pair_loss' (P st) p; Ok (st, val_loss + loss))
           pairs (st, val_loss) = Ok (st', val_loss') →
  st' = st.
Proof.
  revert val_loss. induction pairs as [|p pairs IH]; intros val_loss; simpl.
  - by intros [= <- _].
  - intros ([st1 v1] & (loss & _ & [= <- <-])%bind_Ok & Hrest)%bind_Ok.
    by eapply IH.
Qed.

(** Validation of an empty set raises: [val_loss] is still the integer
    0, which has no [.item()]. *)
Lemma validation_phase_empty (epoch : nat) (st : trainer T Adam) :
  validation_phase encode loss_func [] epoch st = Raise AttributeError.
Proof. done. Qed.

(** The entries of an entrywise sum. *)
Lemma madd_shape (r c : nat) (A B : matrix T) :
  has_shape r c A → has_shape r c B → has_shape r c (madd A B).
Proof.
  intros [HA HrowsA] [HB HrowsB]. unfold madd. split.
  { rewrite length_zip_with. lia. }
  apply Forall_lookup. intros j row. rewrite lookup_zip_with.
  intros (ra & Hra & (rb & Hrb & [= <-])%bind_Some)%bind_Some.
  rewrite length_zip_with.
  pose proof (Forall_lookup_1 _ _ _ _ HrowsA Hra) as Hla.
  pose proof (Forall_lookup_1 _ _ _ _ HrowsB Hrb) as Hlb.
  cbv beta in Hla, Hlb. lia.
Qed.

Lemma entry_madd (r c : nat) (A B : matrix T) (j k : nat) :
  has_shape r c A → has_shape r c B → (j < r)%nat → (k < c)%nat →
  entry (madd A B) j k = entry A j k + entry B j k.
Proof.
  intros [HA HrowsA] [HB HrowsB] Hj Hk. unfold entry, madd.
  rewrite lookup_zip_with.
  destruct (lookup_lt_is_Some_2 A j) as [ra Hra]; [lia|].
  destruct (lookup_lt_is_Some_2 B j) as [rb Hrb]; [lia|].
  rewrite Hra, Hrb. simpl. rewrite lookup_zip_with.
  pose proof (Forall_lookup_1 _ _ _ _ HrowsA Hra) as Hla.
  pose proof (Forall_lookup_1 _ _ _ _ HrowsB Hrb) as Hlb.
  cbv beta in Hla, Hlb.
  destruct (lookup_lt_is_Some_2 ra k) as [x Hx]; [lia|].
  destruct (lookup_lt_is_Some_2 rb k) as [y Hy]; [lia|].
  by rewrite Hx, Hy.
Qed.

(** Entry by entry, the accumulated gradient is the sum of the entries
    of the gradients, in the order they were added. *)
Lemma grad_sum_entries (g : matrix T) (gs : list (matrix T)) :
  has_shape d d g → Forall (has_shape d d) gs →
  has_shape d d (foldl madd g gs) ∧
  ∀ j k, (j < d)%nat → (k < d)%nat →
    entry (foldl madd g gs) j k
    = foldl (λ sum g', sum + entry g' j k) (entry g j k) gs.
Proof.
  intros Hg Hgs. revert g Hg.
  induction Hgs as [|g' gs Hg' Hgs IH]; intros g Hg; simpl; [done|].
  destruct (IH (madd g g')) as [Hshape Hentries]; [by apply madd_shape|].
  split; [done|]. intros j k Hj Hk.
  by rewrite Hentries, (entry_madd d d) by done.
Qed.

(** C8.  In an epoch the gradient is reset once, before the first pair;
    every training pair then adds its contribution, computed at the
    matrix the epoch started with; and the optimizer steps once, after
    the last pair, on the gradient accumulated from all pairs: entry by
    entry, the sum of the pairs' contributions in the order of the
    pairs, and no gradient at all when there is no training pair.  The
    calls made in the whole epoch are [zero_grad], one [backward] per
    training pair, [step], in this order.  Each contribution has the
    shape of [P], as a gradient with respect to [P] has. *)
Theorem train_phase_full_batch (st : trainer T Adam) :
  has_shape d d (P st) →
  Forall (λ p, has_shape d d (loss_gradient p (P st))) train_pairs →
  ∃ grad : option (matrix T),
    match train_pairs with
    | [] => grad = None
    | p :: pairs =>
        ∃ G, grad = Some G ∧ has_shape d d G ∧
             ∀ j k, (j < d)%nat → (k < d)%nat →
               entry G j k
               = foldl (λ sum q, sum + entry (loss_gradient q (P st)) j k)
                       (entry (loss_gradient p (P st)) j k) pairs
    end ∧
    let st1 :=
      {| P := (adam_step (optimizer st) (P st) grad).2;
         P_grad := grad;
         optimizer := (adam_step (optimizer st) (P st) grad).1;
         calls := calls st ++ [ZeroGrad] ++ (Backward <$> train_pairs)
                    ++ [Step];
         stdout := stdout st |} in
    train_phase' st = Ok st1 ∧
    ∀ epoch st2,
      run_epoch' st epoch = Ok st2 →
      calls st2 = calls st1 ∧ P_grad st2 = P_grad st1 ∧
      P st2 = P st1 ∧ optimizer st2 = optimizer st1.
Proof.
  intros HP Hshapes.
  exists (grad_sum ((λ p, loss_gradient p (P st)) <$> train_pairs)).
  set (grad := grad_sum _). split.
  { subst grad. destruct train_pairs as [|p pairs]; [done|].
    apply Forall_cons in Hshapes as [Hp Hpairs]. simpl.
    destruct (grad_sum_entries (loss_gradient p (P st))
                ((λ q, loss_gradient q (P st)) <$> pairs))
      as [Hshape Hentries]; [done | by apply Forall_fmap |].
    eexists. split; [done|]. split; [done|]. intros j k Hj Hk.
    by rewrite Hentries, foldl_fmap by done. }
  intros st1.
  assert (train_phase' st = Ok st1) as Htrain.
  { unfold train_phase. rewrite train_loop by done. simpl. unfold step.
    simpl. rewrite accumulate_from_none. fold grad. subst st1.
    destruct (adam_step (optimizer st) (P st) grad) as [o' P']. simpl.
    by rewrite <- !(assoc_L (++)). }
  split; [done|]. intros epoch st2. unfold run_epoch. rewrite Htrain. simpl.
  unfold validation_phase.
  intros ([st' val_loss] & Hloop & Hprint)%bind_Ok.
  apply validation_loop_frame in Hloop as ->.
  case_decide; [done|]. by injection Hprint as <-.
Qed.

(** The loop over the validation pairs adds up the losses and leaves the
    trainer as it was. *)
Lemma validation_loop (pairs : list TrainingPair) (st : trainer T Adam)
    (val_loss : T) :
  has_shape d d (P st) →
  ∃ losses,
    Forall2 (λ p loss, pair_loss' (P st) p = Ok loss) pairs losses ∧
    for_each (λ '(st, val_loss) p,
                loss ← pair_loss' (P st) p; Ok (st, val_loss + loss))
             pairs (st, val_loss)
    = Ok (st, foldl fadd val_loss losses).
Proof.
  intros HP. revert val_loss.
  induction pairs as [|p pairs IH]; intros val_loss; simpl.
  - by exists [].
  - destruct (pair_loss_defined (P st) p HP) as [loss Hloss].
    destruct (IH (val_loss + loss)) as (losses & Hall & Hloop).
    exists (loss :: losses). split; [by constructor|].
    rewrite Hloss. simpl. by rewrite Hloop.
Qed.

(** The loss of a pair is [loss_func] of the pair's projected score
    against its label. *)
Lemma pair_loss_Ok (M : matrix T) (x_i x_c : string) (y : nat) (loss : T) :
  pair_loss' M (x_i, x_c, y) = Ok loss →
  ∃ projected prediction,
    vecmat (embed encode x_i) M = Ok projected ∧
    dot projected (embed encode x_c) = Ok prediction ∧
    loss = loss_func prediction (of_nat y).
Proof.
  unfold pair_loss, similarity_with_projection.
  intros (prediction & (projected & Hprojected & Hdot)%bind_Ok & [= <-])%bind_Ok.
  by exists projected, prediction.
Qed.

Lemma losses_of_predictions (M : matrix T) (pairs : list TrainingPair)
    (losses : list T) :
  Forall2 (λ p loss, pair_loss' M p = Ok loss) pairs losses →
  ∃ predictions,
    Forall2 (λ '(x_i, x_c, y) prediction,
               ∃ projected,
                 vecmat (embed encode x_i) M = Ok projected ∧
                 dot projected (embed encode x_c) = Ok prediction)
            pairs predictions ∧
    losses = zip_with (λ '(x_i, x_c, y) prediction,
                         loss_func prediction (of_nat y))
                      pairs predictions.
Proof.
  induction 1 as [|[[x_i x_c] y] loss pairs losses Hloss _ IH].
  { by exists []. }
  destruct IH as (predictions & Hall & ->).
  apply pair_loss_Ok in Hloss as (projected & prediction & ? & ? & ->).
  exists (prediction :: predictions). split; [|done].
  constructor; [by exists projected | done].
Qed.

(** C9.  Once the training half of an epoch has produced the updated
    trainer [st1], the epoch prints the mean, over the validation pairs
    [(x_i, x_c, y)], of [loss_func] applied to the projected score
    [(embed(x_i) @ P) @ embed(x_c)] at the matrix [P] of [st1] and to
    the label [y]; and it ends in [st1] with that one line added: the
    matrix, its gradient, the optimizer and the list of optimizer calls
    are those of [st1]. *)
Theorem validation_reports_mean_loss (epoch : nat) (st st1 : trainer T Adam) :
  train_phase' st = Ok st1 →
  has_shape d d (P st1) →
  val_pairs ≠ [] →
  ∃ predictions st2,
    Forall2 (λ '(x_i, x_c, y) prediction,
               ∃ projected,
                 vecmat (embed encode x_i) (P st1) = Ok projected ∧
                 dot projected (embed encode x_c) = Ok prediction)
            val_pairs predictions ∧
    run_epoch' st epoch = Ok st2 ∧
    stdout st2
    = stdout st1
        ++ [(epoch,
             mean (zip_with (λ '(x_i, x_c, y) prediction,
                               loss_func prediction (of_nat y))
                            val_pairs predictions))] ∧
    P st2 = P st1 ∧ P_grad st2 = P_grad st1 ∧
    optimizer st2 = optimizer st1 ∧ calls st2 = calls st1.
Proof.
  intros Htrain HP Hval. unfold run_epoch. rewrite Htrain. simpl.
  unfold validation_phase.
  destruct (validation_loop val_pairs st1 f0 HP) as (losses & Hall & ->).
  simpl. rewrite decide_False by done.
  destruct (losses_of_predictions _ _ _ Hall) as (predictions & Hpred & Hlosses).
  exists predictions,
    (print epoch (foldl fadd f0 losses / of_nat (length val_pairs)) st1).
  repeat split; try done. simpl. rewrite <- Hlosses. unfold mean.
  rewrite decide_False; [by rewrite (Forall2_length _ _ _ Hall)|].
  intros ->. inversion Hall. by subst.
Qed.

(** The optimizer returns a matrix of the shape it was given. *)
Hypothesis adam_step_shape : ∀ o M g,
  has_shape d d M → has_shape d d (adam_step o M g).2.

Lemma train_phase_defined (st : trainer T Adam) :
  has_shape d d (P st) →
  ∃ st1, train_phase' st = Ok st1 ∧ has_shape d d (P st1) ∧
         stdout st1 = stdout st.
Proof.
  intros HP. unfold train_phase. rewrite train_loop by done. simpl.
  eexists. split; [done|]. unfold step. simpl.
  pose proof (adam_step_shape (optimizer st) (P st)
                (foldl accumulate None
                       ((λ p, loss_gradient p (P st)) <$> train_pairs)) HP).
  by destruct (adam_step _ _ _).
Qed.

Lemma validation_phase_defined (epoch : nat) (st1 : trainer T Adam) :
  has_shape d d (P st1) → val_pairs ≠ [] →
  ∃ val_loss, validation_phase' epoch st1 = Ok (print epoch val_loss st1).
Proof.
  intros HP Hval. unfold validation_phase.
  destruct (validation_loop val_pairs st1 f0 HP) as (losses & _ & ->).
  simpl. rewrite decide_False by done. eauto.
Qed.

Lemma run_epoch_defined (epoch : nat) (st : trainer T Adam) :
  has_shape d d (P st) → val_pairs ≠ [] →
  ∃ st2 val_loss,
    run_epoch' st epoch = Ok st2 ∧ has_shape d d (P st2) ∧
    stdout st2 = stdout st ++ [(epoch, val_loss)].
Proof.
  intros HP Hval. unfold run_epoch.
  destruct (train_phase_defined st HP) as (st1 & -> & HP1 & Hout1). simpl.
  destruct (validation_phase_defined epoch st1 HP1 Hval) as [val_loss ->].
  exists (print epoch val_loss st1), val_loss. simpl. by rewrite Hout1.
Qed.

(** C5.  The training loop has no divergence check.  With a non-empty
    validation set it runs every one of its epochs and prints one
    validation loss per epoch, whatever the values of the losses, and
    ends normally. *)
Theorem training_runs_every_epoch (n : nat) (st : trainer T Adam) :
  has_shape d d (P st) → val_pairs ≠ [] →
  ∃ st' val_losses,
    training' n st = Ok st' ∧
    length val_losses = n ∧
    stdout st' = stdout st ++ zip (seq 0 n) val_losses.
Proof.
  intros HP Hval. unfold training.
  cut (∀ start, ∃ st' val_losses,
         for_each run_epoch' (seq start n) st = Ok st' ∧
         length val_losses = n ∧
         stdout st' = stdout st ++ zip (seq start n) val_losses).
  { intros Hgen. apply Hgen. }
  revert st HP. induction n as [|n IH]; intros st HP start; simpl.
  { exists st, []. by rewrite app_nil_r. }
  destruct (run_epoch_defined start st HP Hval)
    as (st2 & val_loss & -> & HP2 & Hout2). simpl.
  destruct (IH st2 HP2 (S start)) as (st' & val_losses & -> & Hlen & Hout).
  exists st', (val_loss :: val_losses). split; [done|]. split.
  - simpl. by rewrite Hlen.
  - rewrite Hout, Hout2. by rewrite <- (assoc_L (++)).
Qed.
End training_facts.

(** ** The notebook on the toy collaborators *)

(** Closed goals about lists of strings are decided by computation. *)
Ltac by_computation := apply (bool_decide_unpack _); vm_compute; exact I.

Lemma toy_encode_dim {T} `{Arith T} (text : string) :
  length (toy_encode (T:=T) text) = dim (toy_encode (T:=T)).
Proof. unfold toy_encode. by repeat case_decide. Qed.

Lemma gradient_descent_step_shape (r c steps : nat) (M : matrix float)
    (grad : option (matrix float)) :
  has_shape r c M → has_shape r c (gradient_descent_step steps M grad).2.
Proof.
  intros [Hrows Hcols]. destruct grad as [g|]; simpl; [|done].
  split; [by rewrite length_imap|].
  apply Forall_lookup. intros j row. rewrite list_lookup_imap.
  intros (row' & Hrow' & ->)%fmap_Some. rewrite length_imap.
  by apply (proj1 (Forall_lookup _ _) Hcols j).
Qed.

(** The literal [0.7] of the notebook is the quotient of 7 by 10. *)
Example threshold_float : threshold = 0x1.6666666666666p-1%float.
Proof. reflexivity. Qed.

(** *** Similarity *)

Example similarity_toy :
  similarity (T:=float) toy_encode auth_question auth_snippet = Ok 1%float ∧
  similarity (T:=float) toy_encode auth_question sum_snippet = Ok 0%float.
Proof. by vm_compute. Qed.

Example similarity_with_swap_projection :
  similarity_with_projection (T:=float) toy_encode auth_question auth_snippet
    swap_matrix = Ok 0%float ∧
  similarity_with_projection (T:=float) toy_encode auth_question sum_snippet
    swap_matrix = Ok 1%float.
Proof. by vm_compute. Qed.

Example similarity_with_identity_projection_float :
  similarity_with_projection (T:=float) toy_encode auth_question auth_snippet
    (eye 2) = Ok 1%float.
Proof. by vm_compute. Qed.


Example similarity_of_infinite_passage :
  similarity unbounded_encode sum_question auth_question = Ok infinity.
Proof. by vm_compute. Qed.


(** The same in float32. *)
Example identity_projection_of_infinite_embedding_float32 :
  let encode (text : string) : vector float32 :=
    if decide (text = auth_question)
    then [S754_infinity false; f1] else [f1; f0] in
  similarity_with_projection encode auth_question sum_snippet
    (eye (dim encode)) = Ok S754_nan ∧
  similarity encode auth_question sum_snippet = Ok (S754_infinity false).
Proof. by vm_compute. Qed.

(** The negative zero is finite; the projection turns it into the
    positive zero, which the dot product does not show. *)
Example similarity_with_identity_projection_neg_zero :
  let encode (text : string) : vector float := [neg_zero; 1%float] in
  vecmat (encode auth_question) (eye 2) = Ok [0%float; 1%float] ∧
  similarity_with_projection encode auth_question sum_snippet (eye 2)
  = similarity encode auth_question sum_snippet.
Proof. by vm_compute. Qed.

(** *** The two formats *)

Example threshold_float32 :
  threshold = (S754_finite false 11744051 (-24) : float32).
Proof. reflexivity. Qed.

(** On the toy embeddings float32 computes what binary64 computes. *)
Example similarity_toy_float32 :
  similarity (T:=float32) toy_encode auth_question auth_snippet = Ok f1 ∧
  similarity (T:=float32) toy_encode auth_question sum_snippet = Ok f0 ∧
  similarity_with_projection (T:=float32) toy_encode auth_question
    sum_snippet swap_matrix = Ok f1.
Proof. by vm_compute. Qed.

(** The product of the float32 nearest to 1/10 with 7 is rounded by
    float32 to the float32 nearest to 7/10, which is below 0.7 and is
    not above the threshold; binary64 holds the product exactly, and it
    is above 0.7.  The notebook, whose tensors are float32, labels the
    pair 0. *)
Example similarity_rounding :
  similarity (rounding_encode tenth_float32) auth_question auth_snippet
  = Ok (S754_finite false 11744051 (-24)) ∧
  similarity (rounding_encode tenth_float) auth_question auth_snippet
  = Ok 0x1.666666cp-1%float.
Proof. by vm_compute. Qed.

Example example_pairs_rounding :
  let dataset := [ {| user_input := auth_question;
                      snippets := [auth_snippet] |} ] in
  example_pairs (rounding_encode tenth_float32) dataset
  = Ok [(auth_question, auth_snippet, 0)] ∧
  example_pairs (rounding_encode tenth_float) dataset
  = Ok [(auth_question, auth_snippet, 1)].
Proof. by vm_compute. Qed.

(** *** Training pairs *)

(** Both snippets are in the relevant list of the question; the one whose
    similarity is 0 is labelled 0. *)
Lemma example_pairs_relevant_passage_labelled_0 :
  example_pairs (T:=float) toy_encode toy_dataset
  = Ok [(auth_question, auth_snippet, 1); (auth_question, sum_snippet, 0)].
Proof. by vm_compute. Qed.

Lemma example_pairs_labels_toy :
  ∃ pairs,
    example_pairs (T:=float) toy_encode toy_dataset = Ok pairs ∧
    Forall2 (labelled_by_threshold (T:=float) toy_encode)
            (own_passages toy_dataset)
            pairs.
Proof.
  apply (example_pairs_labels (T:=float)). intros text. apply toy_encode_dim.
Defined.

(** *** Retrieval *)

(** C2.  The corpus of the two-query dataset has the addition snippet
    first.  For the authentication question the retrieved list has it
    first as well, although its score is the lower one: the list is in
    corpus order, not in descending order of score. *)
Theorem retrieve_relevant_snippets_not_sorted :
  retrieve_relevant_snippets (T:=float) toy_encode (eye 2)
    (all_snippets two_query_dataset) auth_question
  = Ok [(sum_snippet, 0%float); (auth_snippet, 1%float)] ∧
  ¬ descending [(sum_snippet, 0%float); (auth_snippet, 1%float)].
Proof.
  split; [by vm_compute|]. intros Hsorted.
  apply StronglySorted_inv in Hsorted as [_ Hhead].
  apply Forall_inv in Hhead. by vm_compute in Hhead.
Qed.

(** The evaluation reads the retrieved list as a ranking, so the score it
    reports is the same for every matrix. *)
Example evaluation_blind_to_projection :
  evaluate_retrieval_strategy (T:=float) two_query_dataset
    (retrieve_relevant_snippets toy_encode (eye 2)
       (all_snippets two_query_dataset))
    = Ok (PyStr "Mean Average Precision (MAP): 0.7500") ∧
  evaluate_retrieval_strategy (T:=float) two_query_dataset
    (retrieve_relevant_snippets toy_encode swap_matrix
       (all_snippets two_query_dataset))
    = Ok (PyStr "Mean Average Precision (MAP): 0.7500").
Proof. split; by vm_compute. Qed.

(** *** Average precision *)

Example average_precision_perfect :
  average_precision (T:=float) [auth_snippet]
    [(auth_snippet, 1%float); (sum_snippet, 0%float)] = 1%float.
Proof. by vm_compute. Qed.



Lemma average_precision_ignores_scores_toy :
  average_precision (T:=float) [auth_snippet]
    [(sum_snippet, 0.5%float); (auth_snippet, 0.25%float)]
  = average_precision [auth_snippet]
      [(sum_snippet, 0.25%float); (auth_snippet, 0.5%float)].
Proof. apply average_precision_ignores_scores. reflexivity. Defined.

(** *** Evaluation *)

(** For the empty dataset the value returned is a string, not the number
    0; for the toy dataset it is a string as well. *)
Lemma evaluate_retrieval_strategy_returns_text :
  evaluate_retrieval_strategy (T:=float) [] (λ _, Ok [])
    = Ok (PyStr "Mean Average Precision (MAP): 0.0000") ∧
  evaluate_retrieval_strategy (T:=float) [] (λ _, Ok []) ≠ Ok (PyNum f0) ∧
  evaluate_retrieval_strategy (T:=float) toy_dataset
    (retrieve_relevant_snippets toy_encode (eye 2) (all_snippets toy_dataset))
    = Ok (PyStr "Mean Average Precision (MAP): 1.0000").
Proof. split; [by vm_compute|]. split; [by vm_compute|by vm_compute]. Qed.

Lemma evaluate_retrieval_strategy_string_toy :
  evaluate_retrieval_strategy (T:=float) toy_dataset
    (retrieve_relevant_snippets toy_encode (eye 2) (all_snippets toy_dataset))
  = Ok (PyStr ("Mean Average Precision (MAP): " +:+
               fmt4 (mean [average_precision [auth_snippet; sum_snippet]
                             [(auth_snippet, 1%float);
                              (sum_snippet, 0%float)]]))).
Proof.
  apply (evaluate_retrieval_strategy_string (T:=float) toy_dataset _
           [[(auth_snippet, 1%float); (sum_snippet, 0%float)]]).
  repeat constructor.
Defined.

(** *** Embedding lookups *)

(** Two lookups of one text: the model is called twice. *)
Lemma embed_calls_model_again :
  (lookups (T:=float) toy_encode [auth_question; auth_question] []).2
  = [auth_question; auth_question].
Proof. reflexivity. Qed.

(** *** Training *)

Lemma train_phase_full_batch_toy :
  ∃ G st1,
    train_phase (T:=float) toy_encode squared_error
      (squared_error_gradient toy_encode) gradient_descent_step
      toy_train_pairs (initial_trainer swap_matrix 0) = Ok st1 ∧
    P_grad st1 = Some G ∧
    (∀ j k, (j < 2)%nat → (k < 2)%nat →
       entry G j k
       = (entry (squared_error_gradient toy_encode
                   (auth_question, auth_snippet, 1) swap_matrix) j k
          + entry (squared_error_gradient toy_encode
                     (auth_question, sum_snippet, 0) swap_matrix) j k)%num) ∧
    calls st1 = [ZeroGrad; Backward (auth_question, auth_snippet, 1);
                 Backward (auth_question, sum_snippet, 0); Step].
Proof.
  destruct (train_phase_full_batch (T:=float) toy_encode squared_error
              (squared_error_gradient toy_encode) nat gradient_descent_step
              toy_train_pairs toy_val_pairs toy_encode_dim
              (initial_trainer swap_matrix 0))
    as (grad & (G & -> & _ & Hentries) & Htrain & _).
  - split; [reflexivity | repeat constructor].
  - repeat constructor.
  - eexists G, _. split; [exact Htrain|]. split; [reflexivity|].
    split; [exact Hentries | reflexivity].
Defined.

Example train_phase_toy :
  train_phase (T:=float) toy_encode squared_error
    (squared_error_gradient toy_encode) gradient_descent_step
    toy_train_pairs (initial_trainer swap_matrix 0) = Ok toy_trained.
Proof. by vm_compute. Qed.

Example run_epoch_toy :
  run_epoch (T:=float) toy_encode squared_error
    (squared_error_gradient toy_encode) gradient_descent_step
    toy_train_pairs toy_val_pairs (initial_trainer swap_matrix 0) 0
  = Ok (print 0 0.125%float toy_trained).
Proof. by vm_compute. Qed.

Lemma validation_reports_mean_loss_toy :
  ∃ predictions st2,
    Forall2 (λ '(x_i, x_c, y) prediction,
               ∃ projected,
                 vecmat (embed toy_encode x_i) (P toy_trained) = Ok projected ∧
                 dot projected (embed toy_encode x_c) = Ok prediction)
            toy_val_pairs predictions ∧
    run_epoch (T:=float) toy_encode squared_error
      (squared_error_gradient toy_encode) gradient_descent_step
      toy_train_pairs toy_val_pairs (initial_trainer swap_matrix 0) 0
      = Ok st2 ∧
    stdout st2
    = stdout toy_trained
        ++ [(0, mean (zip_with (λ '(x_i, x_c, y) prediction,
                                  squared_error prediction (of_nat y))
                               toy_val_pairs predictions))] ∧
    P st2 = P toy_trained ∧ P_grad st2 = P_grad toy_trained ∧
    optimizer st2 = optimizer toy_trained ∧ calls st2 = calls toy_trained.
Proof.
  apply (validation_reports_mean_loss (T:=float) toy_encode squared_error
           (squared_error_gradient toy_encode) nat gradient_descent_step
           toy_train_pairs toy_val_pairs).
  - intros text. apply toy_encode_dim.
  - by vm_compute.
  - split; [reflexivity | repeat constructor].
  - discriminate.
Defined.

(** One training pair in all: the 80/20 split leaves it to validation.
    Its loss is infinite at every epoch; the loop prints it 25 times and
    ends normally. *)
Lemma training_continues_on_infinite_loss :
  ∃ st,
    training overflowed_encode saturated_bce
      (squared_error_gradient overflowed_encode) gradient_descent_step
      [] [(auth_question, auth_snippet, 0)] num_epochs
      (initial_trainer [[1%float]] 0) = Ok st ∧
    stdout st = (λ epoch, (epoch, infinity)) <$> seq 0 num_epochs.
Proof. eexists. split; by vm_compute. Qed.

Lemma training_runs_every_epoch_toy :
  ∃ st' val_losses,
    training overflowed_encode saturated_bce
      (squared_error_gradient overflowed_encode) gradient_descent_step
      [] [(auth_question, auth_snippet, 0)] num_epochs
      (initial_trainer [[1%float]] 0) = Ok st' ∧
    length val_losses = num_epochs ∧
    stdout st' = [] ++ zip (seq 0 num_epochs) val_losses.
Proof.
  apply (training_runs_every_epoch (T:=float) overflowed_encode saturated_bce
           (squared_error_gradient overflowed_encode) nat
           gradient_descent_step [] [(auth_question, auth_snippet, 0)]).
  - reflexivity.
  - intros o M g. apply gradient_descent_step_shape.
  - split; [reflexivity | repeat constructor].
  - discriminate.
Defined.

(** ** Python strings *)

Lemma str_app_nil (s : string) : "" +:+ s = s.
Proof. reflexivity. Qed.

Lemma str_app_cons (c : ascii) (s t : string) :
  String c s +:+ t = String c (s +:+ t).
Proof. reflexivity. Qed.

Ltac str_simpl := rewrite ?str_app_cons, ?str_app_nil; simpl.

Lemma str_app_assoc (a b c : string) : (a +:+ b) +:+ c = a +:+ (b +:+ c).
Proof. induction a as [|x a IH]; str_simpl; [done|]. by rewrite IH. Qed.

Lemma lstrip_spaces (ws s : string) :
  all_space ws = true → lstrip (ws +:+ s) = lstrip s.
Proof.
  induction ws as [|c ws IH]; str_simpl; [done|].
  intros [Hc Hws]%andb_true_iff. rewrite Hc. by apply IH.
Qed.

Lemma rstrip_all_space (ws : string) : all_space ws = true → rstrip ws = "".
Proof.
  induction ws as [|c ws IH]; simpl; [done|].
  intros [Hc Hws]%andb_true_iff. by rewrite IH, Hc.
Qed.

Lemma rstrip_spaces (s ws : string) :
  ends_solid s → all_space ws = true → rstrip (s +:+ ws) = s.
Proof.
  intros (s' & c & -> & Hc) Hws. rewrite str_app_assoc. str_simpl.
  induction s' as [|x s' IH]; str_simpl.
  - by rewrite (rstrip_all_space ws Hws), Hc.
  - rewrite IH. by destruct s'.
Qed.

(** Stripping removes the whitespace around a text that begins and ends
    with other characters. *)
Lemma strip_padded (ws1 s ws2 : string) :
  all_space ws1 = true → all_space ws2 = true →
  starts_solid s → ends_solid s →
  strip (ws1 +:+ s +:+ ws2) = s.
Proof.
  intros Hws1 Hws2 (c & s' & Hs & Hc) Hend. unfold strip.
  rewrite lstrip_spaces by done.
  assert (lstrip (s +:+ ws2) = s +:+ ws2) as ->.
  { subst s. str_simpl. by rewrite Hc. }
  by apply rstrip_spaces.
Qed.

Lemma str_split_nonempty (sep : ascii) (s : string) : str_split sep s ≠ [].
Proof.
  induction s as [|c s IH]; simpl; [done|].
  case_decide; [done|]. by destruct (str_split sep s).
Qed.

Lemma str_split_lacks (sep : ascii) (s : string) :
  lacks sep s = true → str_split sep s = [s].
Proof.
  induction s as [|c s IH]; simpl; [done|].
  intros [Hc Hs]%andb_true_iff. apply bool_decide_eq_true in Hc.
  rewrite decide_False by done. by rewrite IH.
Qed.

(** Splitting at a separator: the pieces before it, then the pieces
    after it. *)
Lemma str_split_app (sep : ascii) (a b : string) :
  str_split sep (a +:+ String sep b) = str_split sep a ++ str_split sep b.
Proof.
  induction a as [|c a IH]; str_simpl.
  - by rewrite decide_True.
  - case_decide; [by rewrite IH|]. rewrite IH.
    pose proof (str_split_nonempty sep a). by destruct (str_split sep a).
Qed.

Lemma str_concat_cons (sep x y : string) (l : list string) :
  String.concat sep (x :: y :: l) = x +:+ sep +:+ String.concat sep (y :: l).
Proof. reflexivity. Qed.

(** Joining what was split gives the text back. *)
Lemma str_join_split (sep : ascii) (s : string) :
  str_join sep (str_split sep s) = s.
Proof.
  unfold str_join. induction s as [|c s IH]; [done|]. cbn [str_split].
  pose proof (str_split_nonempty sep s) as Hne.
  destruct (str_split sep s) as [|p ps]; [done|]. case_decide as Hc.
  - subst c. rewrite str_concat_cons, IH. by str_simpl.
  - destruct ps as [|q ps]; [by rewrite <- IH|].
    rewrite str_concat_cons in *. rewrite <- IH. by str_simpl.
Qed.

(** ** Loading the dataset *)

Lemma slice_1_m1_middle {A} (x y : A) (l : list A) :
  slice_1_m1 ([x] ++ l ++ [y]) = l.
Proof.
  unfold slice_1_m1. simpl. rewrite length_app. simpl.
  replace (length l + 1 - 1) with (length l) by lia.
  rewrite drop_0. apply take_app_length.
Qed.

Lemma starts_solid_app (s t : string) : starts_solid s → starts_solid (s +:+ t).
Proof. intros (c & s' & -> & Hc). exists c, (s' +:+ t). by str_simpl. Qed.

Lemma ends_solid_app (s t : string) : ends_solid t → ends_solid (s +:+ t).
Proof.
  intros (t' & c & -> & Hc). exists (s +:+ t'), c.
  by rewrite str_app_assoc.
Qed.

Lemma ends_solid_cons (c : ascii) (t : string) :
  ends_solid t → ends_solid (String c t).
Proof. intros (t' & c' & -> & Hc). by exists (String c t'), c'. Qed.

(** X1.  A snippet text that is a fenced block (a header line, the code,
    a closing line), with any whitespace around it, is stored as the code
    between the two lines, whatever the code contains. *)
Theorem snippet_code_fenced (ws1 ws2 header code footer : string) :
  all_space ws1 = true → all_space ws2 = true →
  starts_solid header → lacks newline header = true →
  ends_solid footer → lacks newline footer = true →
  snippet_code
    (strip (ws1 +:+ (header +:+ String newline
                                  (code +:+ String newline footer))
              +:+ ws2))
  = code.
Proof.
  intros Hws1 Hws2 Hstart Hheader Hend Hfooter.
  rewrite strip_padded; [|done|done|by apply starts_solid_app|].
  2:{ apply ends_solid_app, ends_solid_cons, ends_solid_app.
      by apply ends_solid_cons. }
  unfold snippet_code.
  rewrite !str_split_app, (str_split_lacks _ header), (str_split_lacks _ footer)
    by done.
  rewrite slice_1_m1_middle. apply str_join_split.
Qed.

(** X2.  A snippet text of one line, or of two lines, is stored as the
    empty string: the first and the last line are dropped and nothing is
    left. *)
Theorem snippet_code_short (ws1 ws2 line1 line2 : string) :
  all_space ws1 = true → all_space ws2 = true →
  lacks newline line1 = true → lacks newline line2 = true →
  starts_solid line1 →
  (ends_solid line1 →
   snippet_code (strip (ws1 +:+ line1 +:+ ws2)) = "") ∧
  (ends_solid line2 →
   snippet_code (strip (ws1 +:+ (line1 +:+ String newline line2) +:+ ws2))
   = "").
Proof.
  intros Hws1 Hws2 Hline1 Hline2 Hstart. split; intros Hend.
  - rewrite strip_padded by done. unfold snippet_code.
    by rewrite str_split_lacks.
  - rewrite strip_padded;
      [|done|done|by apply starts_solid_app
       |by apply ends_solid_app, ends_solid_cons].
    unfold snippet_code.
    by rewrite str_split_app, !str_split_lacks.
Qed.

(** X3.  The file name read from the header is its second token when the
    header is two tokens separated by one space, and [None] when the
    header has no space. *)
Theorem snippet_filename_header (token1 token2 rest : string) :
  lacks newline token1 = true → lacks newline token2 = true →
  lacks space token1 = true → lacks space token2 = true →
  snippet_filename (token1 +:+ String newline rest) = None ∧
  snippet_filename
    ((token1 +:+ String space token2) +:+ String newline rest)
  = Some token2.
Proof.
  intros Hnl1 Hnl2 Hsp1 Hsp2. unfold snippet_filename. split.
  - rewrite str_split_app, (str_split_lacks newline token1) by done. simpl.
    by rewrite (str_split_lacks space token1).
  - assert (lacks newline (token1 +:+ String space token2) = true) as Hnl.
    { clear -Hnl1 Hnl2. induction token1 as [|c t IH]; str_simpl.
      - by rewrite Hnl2.
      - apply andb_true_iff in Hnl1 as [-> Ht]. simpl. by apply IH. }
    rewrite str_split_app, (str_split_lacks newline _ Hnl). simpl.
    by rewrite str_split_app, !str_split_lacks.
Qed.

Lemma findall_snippets (texts : list string) :
  findall "snippet"
    (Element "snippets" None ((λ t, Element "snippet" (Some t) []) <$> texts))
  = (λ t, Element "snippet" (Some t) []) <$> texts.
Proof.
  unfold findall. simpl. induction texts as [|t texts IH]; [done|].
  rewrite fmap_cons, filter_cons_True by done. by rewrite IH.
Qed.

(** A fenced block keeps its text when stripped, and its code is what
    lies between the header and the closing fence. *)
Lemma strip_fenced (ws1 ws2 header code : string) :
  all_space ws1 = true → all_space ws2 = true → starts_solid header →
  strip (ws1 +:+ fenced header code +:+ ws2) = fenced header code.
Proof.
  intros Hws1 Hws2 Hstart. apply strip_padded; [done | done | |].
  - by apply starts_solid_app.
  - apply ends_solid_app, ends_solid_cons, ends_solid_app.
    by exists (String newline "``"), "`"%char.
Qed.

Lemma snippet_code_of_fenced (header code : string) :
  lacks newline header = true →
  snippet_code (fenced header code) = code.
Proof.
  intros Hheader. unfold snippet_code, fenced.
  rewrite !str_split_app, (str_split_lacks _ header) by done.
  rewrite (str_split_lacks newline "```") by done.
  rewrite slice_1_m1_middle. apply str_join_split.
Qed.

Lemma parse_example_element (acc : list ParsedExample) (q : string)
    (texts : list string) :
  parse_example acc (example_element q texts)
  = (snippets_list ←
       for_each parse_snippet
         ((λ t, Element "snippet" (Some t) []) <$> texts) [];
     Ok (acc ++ [{| parsed_user_input := Some q;
                    parsed_snippets := snippets_list |}])).
Proof.
  unfold parse_example.
  change (find "user_input" (example_element q texts))
    with (Some (Element "user_input" (Some q) [])).
  change (find "snippets" (example_element q texts))
    with (Some (Element "snippets" None
                  ((λ t, Element "snippet" (Some t) []) <$> texts))).
  cbv beta iota. by rewrite findall_snippets.
Qed.

Lemma findall_examples (root_tag : string) (root_text : option string)
    (f : Example → list string) (dataset : list Example) :
  findall "example"
    (Element root_tag root_text
       ((λ e, example_element (user_input e) (f e)) <$> dataset))
  = (λ e, example_element (user_input e) (f e)) <$> dataset.
Proof.
  unfold findall. simpl. induction dataset as [|e dataset IH]; [done|].
  rewrite fmap_cons, filter_cons_True by done. by rewrite IH.
Qed.

(** X4.  A document with one [example] element per Example, holding the
    query and every snippet as a fenced block, is parsed back into the
    Examples it was written from: same queries, same snippets, same
    order. *)
Theorem parse_fenced_document (root_tag : string) (root_text : option string)
    (ws1 ws2 header : string) (dataset : list Example) :
  all_space ws1 = true → all_space ws2 = true →
  starts_solid header → lacks newline header = true →
  parse (Element root_tag root_text
           ((λ e, example_element (user_input e)
                    ((λ code, ws1 +:+ fenced header code +:+ ws2)
                       <$> snippets e))
              <$> dataset))
  = Ok ((λ e, {| parsed_user_input := Some (user_input e);
                 parsed_snippets := snippets e |}) <$> dataset).
Proof.
  intros Hws1 Hws2 Hstart Hheader. unfold parse.
  rewrite (findall_examples root_tag root_text
             (λ e, (λ code, ws1 +:+ fenced header code +:+ ws2)
                     <$> snippets e)).
  cut (∀ acc,
         for_each parse_example
           ((λ e, example_element (user_input e)
                    ((λ code, ws1 +:+ fenced header code +:+ ws2)
                       <$> snippets e)) <$> dataset) acc
         = Ok (acc ++ ((λ e, {| parsed_user_input := Some (user_input e);
                                parsed_snippets := snippets e |})
                         <$> dataset))).
  { intros Hloop. apply (Hloop []). }
  induction dataset as [|e dataset IH]; intros acc; simpl.
  { by rewrite app_nil_r. }
  rewrite parse_example_element.
  assert (∀ codes acc',
            for_each parse_snippet
              ((λ t, Element "snippet" (Some t) [])
                 <$> ((λ code, ws1 +:+ fenced header code +:+ ws2) <$> codes))
              acc' = Ok (acc' ++ codes)) as Hinner.
  { clear -Hws1 Hws2 Hstart Hheader.
    induction codes as [|code codes IH]; intros acc'; simpl.
    { by rewrite app_nil_r. }
    unfold parse_snippet at 1. simpl.
    rewrite strip_fenced, snippet_code_of_fenced by done.
    rewrite IH. by rewrite <- (assoc_L (++)). }
  rewrite Hinner. simpl. rewrite IH. by rewrite <- (assoc_L (++)).
Qed.

Lemma parse_snippet_text (acc : list string) (snippet : element) (t : string) :
  text snippet = Some t →
  parse_snippet acc snippet = Ok (acc ++ [snippet_code (strip t)]).
Proof. intros Ht. unfold parse_snippet. by rewrite Ht. Qed.

Lemma parse_snippet_no_text (acc : list string) (snippet : element) :
  text snippet = None → parse_snippet acc snippet = Raise AttributeError.
Proof. intros Ht. unfold parse_snippet. by rewrite Ht. Qed.

Lemma parse_snippets_loop (snippets : list element) (acc : list string) :
  (Forall (λ snippet, is_Some (text snippet)) snippets ∧
   ∃ codes, for_each parse_snippet snippets acc = Ok (acc ++ codes) ∧
            length codes = length snippets) ∨
  (¬ Forall (λ snippet, is_Some (text snippet)) snippets ∧
   for_each parse_snippet snippets acc = Raise AttributeError).
Proof.
  revert acc. induction snippets as [|snippet snippets IH]; intros acc.
  { left. split; [done|]. exists []. by rewrite app_nil_r. }
  cbn [for_each].
  destruct (text snippet) as [t|] eqn:Ht;
    [rewrite (parse_snippet_text _ _ _ Ht)
    |rewrite (parse_snippet_no_text _ _ Ht)]; cbn [mbind result_bind].
  - destruct (IH (acc ++ [snippet_code (strip t)]))
      as [(Hall & codes & -> & Hlen)|[Hnot ->]].
    + left. split; [constructor; [by rewrite Ht | done]|].
      exists (snippet_code (strip t) :: codes).
      rewrite <- (assoc_L (++)). split; [done | simpl; by rewrite Hlen].
    + right. split; [|done]. by intros [_ ?]%Forall_cons.
  - right. split; [|done]. intros [[? Hsome] _]%Forall_cons.
    by rewrite Ht in Hsome.
Qed.

Lemma parse_example_cases (acc : list ParsedExample) (example : element) :
  (complete_example example ∧
   ∃ parsed, parse_example acc example = Ok (acc ++ [parsed])) ∨
  (¬ complete_example example ∧
   parse_example acc example = Raise AttributeError).
Proof.
  unfold parse_example, complete_example.
  destruct (find "user_input" example) as [ui|]; last first.
  { right. split; [|done]. by intros [[? ?] _]. }
  destruct (find "snippets" example) as [sn|]; last first.
  { right. split; [|done]. by intros [_ (? & ? & _)]. }
  destruct (parse_snippets_loop (findall "snippet" sn) [])
    as [(Hall & codes & -> & _)|[Hnot ->]].
  - left. split; [|by eexists]. split; [done|]. by exists sn.
  - right. split; [|done]. intros [_ (sn' & [= <-] & Hall)]. done.
Qed.

(** X5.  [parse] succeeds, with one Example per [example] element, when
    every [example] element has a [user_input] child and a [snippets]
    child all of whose [snippet] elements have a text; for every other
    document it raises [AttributeError]. *)
Theorem parse_complete_or_raises (root : element) :
  (Forall complete_example (findall "example" root) →
   ∃ examples, parse root = Ok examples ∧
               length examples = length (findall "example" root)) ∧
  (¬ Forall complete_example (findall "example" root) →
   parse root = Raise AttributeError).
Proof.
  unfold parse.
  cut (∀ acc,
         (Forall complete_example (findall "example" root) ∧
          ∃ new, for_each parse_example (findall "example" root) acc
                   = Ok (acc ++ new) ∧
                 length new = length (findall "example" root)) ∨
         (¬ Forall complete_example (findall "example" root) ∧
          for_each parse_example (findall "example" root) acc
            = Raise AttributeError)).
  { intros Hloop. destruct (Hloop []) as [(Hall & new & -> & Hlen)|[Hnot ->]].
    - split; [by exists new | done].
    - split; [done | done]. }
  induction (findall "example" root) as [|example examples IH]; intros acc.
  { left. split; [done|]. exists []. by rewrite app_nil_r. }
  cbn [for_each].
  destruct (parse_example_cases acc example) as [(Hc & parsed & ->)|[Hnot ->]];
    cbn [mbind result_bind].
  - destruct (IH (acc ++ [parsed])) as [(Hall & new & -> & Hlen)|[Hnot ->]].
    + left. split; [by constructor|]. exists (parsed :: new).
      rewrite <- (assoc_L (++)). split; [done | simpl; by rewrite Hlen].
    + right. split; [|done]. by intros [_ ?]%Forall_cons.
  - right. split; [|done]. by intros [? _]%Forall_cons.
Qed.

(** *** The parser on a small document *)

Lemma snippet_code_fenced_toy :
  snippet_code
    (strip (padding +:+ (auth_header +:+ String newline
                           (auth_code +:+ String newline "```"))
              +:+ padding))
  = auth_code.
Proof.
  apply snippet_code_fenced; try reflexivity.
  - by exists "`"%char, "``python auth.py".
  - by exists "``", "`"%char.
Defined.

Lemma snippet_code_short_toy :
  snippet_code (strip (padding +:+ "return True" +:+ padding)) = "".
Proof.
  apply (snippet_code_short padding padding "return True" "return True");
    try reflexivity.
  - by exists "r"%char, "eturn True".
  - by exists "return Tru", "e"%char.
Defined.

Lemma snippet_filename_header_toy :
  snippet_filename ("```python" +:+ String newline auth_code) = None ∧
  snippet_filename
    (("```python" +:+ String space "auth.py") +:+ String newline auth_code)
  = Some "auth.py".
Proof. by apply snippet_filename_header. Defined.

Lemma parse_fenced_document_toy :
  parse (Element "dataset" None
           ((λ e, example_element (user_input e)
                    ((λ code, padding +:+ fenced auth_header code +:+ padding)
                       <$> snippets e))
              <$> toy_dataset))
  = Ok ((λ e, {| parsed_user_input := Some (user_input e);
                 parsed_snippets := snippets e |}) <$> toy_dataset).
Proof.
  apply parse_fenced_document; try reflexivity.
  by exists "`"%char, "``python auth.py".
Defined.

(** An example without a [snippets] element. *)
Example parse_incomplete_document :
  parse (Element "dataset" None
           [Element "example" None
              [Element "user_input" (Some auth_question) []]])
  = Raise AttributeError.
Proof. reflexivity. Qed.

(** The fence lines and the padding are gone. *)
Example parse_snippet_toy :
  parse_snippet []
    (Element "snippet"
       (Some (padding +:+ fenced auth_header auth_code +:+ padding)) [])
  = Ok [auth_code].
Proof. by vm_compute. Qed.

(** ** The split *)

Lemma split_index_exact_from_spec (k : Z) (fuel : nat) (j : Z) :
  split_index_exact_from k fuel = true →
  (k ≤ j < k + Z.of_nat fuel)%Z →
  float_trunc (0x1.999999999999ap-1
               * PrimFloat.of_uint63 (Uint63.of_Z j))%float
  = (4 * j / 5)%Z.
Proof.
  revert k. induction fuel as [|fuel IH]; intros k; simpl; [lia|].
  intros [Hk Hrest]%andb_true_iff Hj. apply Z.eqb_eq in Hk.
  destruct (decide (j = k)) as [->|Hne]; [done|].
  apply (IH (k + 1)%Z); [done | lia].
Qed.

Lemma split_index_exact_10000 :
  split_index_exact_from 0 (Z.to_nat 10001) = true.
Proof. vm_compute. reflexivity. Qed.

(** For up to 10000 pairs the split index, computed in floating point,
    is exactly four fifths of the number of pairs, rounded down. *)
Lemma split_index_four_fifths (n : nat) :
  n ≤ Z.to_nat 10000 → split_index n = 4 * n / 5.
Proof.
  intros Hn.
  change (split_index n) with
    (Z.to_nat (float_trunc (0x1.999999999999ap-1
                            * PrimFloat.of_uint63 (Uint63.of_Z (Z.of_nat n)))
                 %float)).
  rewrite (split_index_exact_from_spec 0 (Z.to_nat 10001) (Z.of_nat n)
             split_index_exact_10000) by lia.
  apply Nat2Z.inj. rewrite Z2Nat.id by (apply Z.div_pos; lia).
  by rewrite Nat2Z.inj_div, Nat2Z.inj_mul.
Qed.

(** For up to 10000 pairs the validation set is empty only when there
    is no pair at all. *)
Lemma split_pairs_val_nil
    (shuffle : list TrainingPair → list TrainingPair)
    (example_pairs : list TrainingPair) :
  (∀ l, shuffle l ≡ₚ l) →
  length example_pairs ≤ Z.to_nat 10000 →
  (split_pairs shuffle example_pairs).2 = [] ↔ example_pairs = [].
Proof.
  intros Hshuffle Hn. unfold split_pairs. cbv zeta. cbn [fst snd].
  pose proof (Permutation_length (Hshuffle example_pairs)) as Hlen.
  rewrite Hlen, split_index_four_fifths by done.
  rewrite <- !length_zero_iff_nil, length_drop, Hlen.
  destruct (decide (length example_pairs = 0)) as [->|Hpos]; [done|].
  assert (4 * length example_pairs / 5 < length example_pairs); [|lia].
  apply Nat.Div0.div_lt_upper_bound. lia.
Qed.

(** X6.  Train and validation pairs together are the generated pairs,
    each once, whatever order the shuffle leaves; for up to 10000 pairs
    the training set holds four fifths of them, rounded down, and the
    validation set is empty only when there is no pair at all. *)
Theorem split_pairs_partition
    (shuffle : list TrainingPair → list TrainingPair)
    (example_pairs : list TrainingPair) :
  (∀ l, shuffle l ≡ₚ l) →
  (split_pairs shuffle example_pairs).1 ++ (split_pairs shuffle example_pairs).2
    ≡ₚ example_pairs ∧
  (length example_pairs ≤ Z.to_nat 10000 →
   length (split_pairs shuffle example_pairs).1
   = 4 * length example_pairs / 5 ∧
   ((split_pairs shuffle example_pairs).2 = [] ↔ example_pairs = [])).
Proof.
  intros Hshuffle.
  split; [|intros Hn; split; [|by apply split_pairs_val_nil]];
    unfold split_pairs; cbv zeta; cbn [fst snd].
  - by rewrite take_drop.
  - pose proof (Permutation_length (Hshuffle example_pairs)) as Hlen.
    rewrite Hlen, split_index_four_fifths by done.
    rewrite length_take, Hlen.
    assert (4 * length example_pairs / 5 ≤ length example_pairs); [|lia].
    apply Nat.Div0.div_le_upper_bound. lia.
Qed.

Lemma split_pairs_partition_toy :
  (split_pairs reverse toy_train_pairs).1 ++ (split_pairs reverse toy_train_pairs).2
    ≡ₚ toy_train_pairs ∧
  length (split_pairs reverse toy_train_pairs).1
    = 4 * length toy_train_pairs / 5 ∧
  ((split_pairs reverse toy_train_pairs).2 = [] ↔ toy_train_pairs = []).
Proof.
  destruct (split_pairs_partition reverse toy_train_pairs) as [Hall Hsizes].
  - intros l. apply reverse_Permutation.
  - split; [exact Hall|]. apply Hsizes. vm_compute. lia.
Defined.

(** The notebook's own run: 20 pairs, 16 for training, 4 for validation. *)
Example split_index_20 : split_index 20 = 16.
Proof. reflexivity. Qed.

(** ** Retrieval, continued *)

Section retrieval_more.
Context {T : Type} `{Arith T}.
Variable encode : string → vector T.

Lemma vecmat_Ok (a : vector T) (M : matrix T) :
  length a = length M →
  ∃ v, vecmat a M = Ok v ∧ length v = ncols M.
Proof.
  intros Hlen. unfold vecmat. rewrite decide_True by done.
  eexists. split; [done|]. by rewrite length_fmap, length_seq.
Qed.

Lemma vecmat_Ok_inv (a : vector T) (M : matrix T) (v : vector T) :
  vecmat a M = Ok v → length a = length M ∧ length v = ncols M.
Proof.
  unfold vecmat. case_decide; [|done]. intros [= <-].
  by rewrite length_fmap, length_seq.
Qed.

Lemma dot_Raise (a b : vector T) :
  length a ≠ length b → dot a b = Raise RuntimeError.
Proof. intros Hlen. unfold dot. by rewrite decide_False. Qed.

Lemma dot_Ok (a b : vector T) :
  length a = length b → ∃ x, dot a b = Ok x.
Proof. intros Hlen. unfold dot. rewrite decide_True by done. eauto. Qed.

(** The loop of [retrieve_relevant_snippets] on a projected query [v]:
    it succeeds when every snippet's embedding has the length of [v], and
    raises [RuntimeError] otherwise. *)
Lemma retrieve_loop_cases (v : vector T) (corpus : list string)
    (acc : list (string * T)) :
  (Forall (λ snippet, length (encode snippet) = length v) corpus ∧
   ∃ new,
     for_each (λ similarities snippet,
                 similarity ← dot v (embed encode snippet);
                 Ok (similarities ++ [(snippet, similarity)]))
              corpus acc = Ok (acc ++ new) ∧
     Forall2 (λ snippet r, r.1 = snippet ∧
                           dot v (embed encode snippet) = Ok r.2)
             corpus new) ∨
  (¬ Forall (λ snippet, length (encode snippet) = length v) corpus ∧
   for_each (λ similarities snippet,
               similarity ← dot v (embed encode snippet);
               Ok (similarities ++ [(snippet, similarity)]))
            corpus acc = Raise RuntimeError).
Proof.
  revert acc. induction corpus as [|snippet corpus IH]; intros acc.
  { left. split; [done|]. exists []. by rewrite app_nil_r. }
  cbn [for_each].
  destruct (decide (length v = length (embed encode snippet))) as [Hlen|Hlen].
  - destruct (dot_Ok _ _ Hlen) as [x Hx]. rewrite Hx.
    cbn [mbind result_bind].
    destruct (IH (acc ++ [(snippet, x)]))
      as [(Hall & new & -> & Hnew)|[Hnot ->]].
    + left. split; [constructor; [symmetry; exact Hlen | done]|].
      exists ((snippet, x) :: new).
      rewrite <- (assoc_L (++)). split; [done|]. by constructor.
    + right. split; [|done]. by intros [_ ?]%Forall_cons.
  - rewrite (dot_Raise _ _ Hlen). right. split; [|done].
    intros [Heq _]%Forall_cons. apply Hlen. symmetry. exact Heq.
Qed.

(** X7.  [retrieve_relevant_snippets] returns one entry per snippet of
    the corpus, in corpus order, each with the score
    [similarity_with_projection] gives that snippet, when the query's
    embedding has as many entries as the matrix has rows and every
    snippet's embedding as many as it has columns.  For every other
    shape it raises [RuntimeError], for an empty corpus too when the
    query does not fit. *)
Theorem retrieve_relevant_snippets_cases (M : matrix T)
    (corpus : list string) (query : string) :
  (length (encode query) = length M ∧
   Forall (λ snippet, length (encode snippet) = ncols M) corpus →
   ∃ ranked,
     retrieve_relevant_snippets encode M corpus query = Ok ranked ∧
     Forall2 (λ snippet r,
                r.1 = snippet ∧
                similarity_with_projection encode query snippet M = Ok r.2)
             corpus ranked) ∧
  (¬ (length (encode query) = length M ∧
      Forall (λ snippet, length (encode snippet) = ncols M) corpus) →
   retrieve_relevant_snippets encode M corpus query = Raise RuntimeError).
Proof.
  unfold retrieve_relevant_snippets, similarity_with_projection, embed.
  destruct (decide (length (encode query) = length M)) as [Hq|Hq]; last first.
  { split; [by intros [? _]|]. intros _. unfold vecmat.
    by rewrite decide_False. }
  destruct (vecmat_Ok _ _ Hq) as (v & Hv & Hlen). rewrite Hv.
  cbn [mbind result_bind]. rewrite <- Hlen.
  destruct (retrieve_loop_cases v corpus [])
    as [(Hall & new & Hloop & Hnew)|[Hnot Hloop]];
    unfold embed in Hloop; rewrite Hloop.
  - split; [|by intros []]. intros _. exists new. split; [done|].
    eapply Forall2_impl; [done|]. by intros snippet r [? ?].
  - split; [by intros [_ ?]|done].
Qed.
End retrieval_more.

(** ** Evaluation, continued *)

Section evaluation_more.
Context {T : Type} `{Arith T}.
Local Open Scope num_scope.
Variable encode : string → vector T.

Lemma average_precision_same_passages (relevant_items : list string)
    (retrieved1 retrieved2 : list (string * T)) :
  retrieved1.*1 = retrieved2.*1 →
  average_precision relevant_items retrieved1
  = average_precision relevant_items retrieved2.
Proof.
  intros Heq. unfold average_precision.
  by rewrite (ap_loop_scores_irrelevant _ retrieved1 retrieved2).
Qed.

(** Two strategies that return the same passages in the same order for
    every query of the dataset get the same evaluation. *)
Lemma evaluate_same_passages (dataset : list Example)
    (strategy1 strategy2 : string → result (list (string * T))) :
  (∀ example, example ∈ dataset →
     ∃ r1 r2, strategy1 (user_input example) = Ok r1 ∧
              strategy2 (user_input example) = Ok r2 ∧ r1.*1 = r2.*1) →
  evaluate_retrieval_strategy dataset strategy1
  = evaluate_retrieval_strategy dataset strategy2.
Proof.
  intros Hsame. unfold evaluate_retrieval_strategy.
  cut (∀ start,
         for_each (λ '(total_ap, num_queries) example,
                     retrieved ← strategy1 (user_input example);
                     let ap := average_precision (snippets example) retrieved in
                     Ok (total_ap + ap, S num_queries)) dataset start
         = for_each (λ '(total_ap, num_queries) example,
                       retrieved ← strategy2 (user_input example);
                       let ap :=
                         average_precision (snippets example) retrieved in
                       Ok (total_ap + ap, S num_queries)) dataset start).
  { intros Hloop. by rewrite Hloop. }
  induction dataset as [|example dataset IH]; intros [total_ap num_queries];
    simpl; [done|].
  destruct (Hsame example) as (r1 & r2 & -> & -> & Heq); [by left|].
  simpl. rewrite (average_precision_same_passages _ r1 r2 Heq).
  apply IH. intros ? ?. apply Hsame. by right.
Qed.

(** X8.  The evaluation of [retrieve_relevant_snippets] does not depend
    on the projection matrix: for two matrices of the embedding
    dimension it returns the same text, because the retrieved list is in
    corpus order for both. *)
Theorem evaluation_independent_of_projection (dataset : list Example)
    (corpus : list string) (M1 M2 : matrix T) :
  (∀ text, length (encode text) = dim encode) →
  has_shape (dim encode) (dim encode) M1 →
  has_shape (dim encode) (dim encode) M2 →
  evaluate_retrieval_strategy dataset
    (retrieve_relevant_snippets encode M1 corpus)
  = evaluate_retrieval_strategy dataset
      (retrieve_relevant_snippets encode M2 corpus).
Proof.
  intros Hdim HM1 HM2. apply evaluate_same_passages. intros example _.
  assert (∀ M, has_shape (dim encode) (dim encode) M →
            ∃ r, retrieve_relevant_snippets encode M corpus
                   (user_input example) = Ok r ∧ r.*1 = corpus) as Hretr.
  { intros M HM. destruct HM as [Hrows Hcols].
    assert (ncols M = dim encode) as Hncols.
    { unfold ncols. destruct Hcols; simpl in *; done. }
    unfold retrieve_relevant_snippets.
    destruct (vecmat_Ok (embed encode (user_input example)) M)
      as (v & -> & Hv); [unfold embed; by rewrite Hdim|].
    cbn [mbind result_bind].
    destruct (retrieve_loop_cases encode v corpus [])
      as [(_ & new & -> & Hnew)|[Hnot _]].
    - exists new. split; [done|]. clear -Hnew.
      induction Hnew as [|s r corpus new [Hr _] _ IH]; [done|].
      rewrite fmap_cons. by f_equal.
    - destruct Hnot. apply Forall_forall. intros s _.
      by rewrite Hdim, Hv, Hncols. }
  destruct (Hretr M1 HM1) as (r1 & -> & Hr1).
  destruct (Hretr M2 HM2) as (r2 & -> & Hr2).
  exists r1, r2. by rewrite Hr1, Hr2.
Qed.

(** X9.  When the strategy raises for an Example, and has returned a
    list for every Example before it, [evaluate_retrieval_strategy]
    raises the same exception and returns no score. *)
Theorem evaluate_retrieval_strategy_raises (before after : list Example)
    (example : Example)
    (retrieval_strategy : string → result (list (string * T)))
    (e : py_error) :
  Forall (λ ex, ∃ r, retrieval_strategy (user_input ex) = Ok r) before →
  retrieval_strategy (user_input example) = Raise e →
  evaluate_retrieval_strategy (before ++ example :: after) retrieval_strategy
  = Raise e.
Proof.
  intros Hbefore Hraise. unfold evaluate_retrieval_strategy.
  cut (∀ start,
         for_each (λ '(total_ap, num_queries) example,
                     retrieved ← retrieval_strategy (user_input example);
                     let ap := average_precision (snippets example) retrieved in
                     Ok (total_ap + ap, S num_queries))
                  (before ++ example :: after) start = Raise e).
  { intros Hloop. by rewrite Hloop. }
  induction Hbefore as [|ex before [r Hr] _ IH]; intros [total_ap num_queries];
    simpl.
  - by rewrite Hraise.
  - rewrite Hr. simpl. by rewrite IH.
Qed.

(** X10.  Irrelevant passages at the end of the ranking do not change
    the average precision. *)
Theorem average_precision_trailing_misses (relevant_items : list string)
    (retrieved_items misses : list (string * T)) :
  Forall (λ it, it.1 ∉ relevant_items) misses →
  average_precision relevant_items (retrieved_items ++ misses)
  = average_precision relevant_items retrieved_items.
Proof.
  intros Hmisses. unfold average_precision.
  rewrite ap_loop_app, ap_loop_misses; last first.
  { eapply Forall_impl; [done|]. intros it Hit.
    by rewrite elem_of_list_to_set. }
  by destruct (ap_loop _ retrieved_items _ _ _).
Qed.

(** X11.  The average precision reads the relevant list only through
    its set of items and its length: two relevant lists with the same
    items and the same length, in any order, give the same value. *)
Theorem average_precision_relevant_order (relevant1 relevant2 : list string)
    (retrieved_items : list (string * T)) :
  (∀ x, x ∈ relevant1 ↔ x ∈ relevant2) →
  length relevant1 = length relevant2 →
  average_precision relevant1 retrieved_items
  = average_precision relevant2 retrieved_items.
Proof.
  intros Hsame Hlen. unfold average_precision.
  assert ((list_to_set relevant1 : gset string) = list_to_set relevant2) as ->.
  { apply set_eq. intros x. by rewrite !elem_of_list_to_set. }
  rewrite Hlen. destruct (ap_loop _ _ _ _ _) as [precision_sum ?].
  destruct relevant1, relevant2; done.
Qed.
End evaluation_more.

(** ** Similarity, continued *)

#[export] Instance Qc_mul_commutative : MulCommutative Qc.
Proof. intros x y. apply Qcmult_comm. Qed.

Lemma SFmul_comm (prec emax : Z) (x y : spec_float) :
  SFmul prec emax x y = SFmul prec emax y x.
Proof.
  destruct x as [sx|sx| |sx mx ex], y as [sy|sy| |sy my ey]; simpl;
    rewrite ?(xorb_comm sx sy); try done.
  by rewrite (Pos.mul_comm mx my), (Z.add_comm ex ey).
Qed.

#[export] Instance float_mul_commutative : MulCommutative float.
Proof.
  intros x y. simpl. apply Prim2SF_inj.
  rewrite !mul_spec. apply SFmul_comm.
Qed.

Section similarity_more.
Context {T : Type} `{MulCommutative T}.
Local Open Scope num_scope.
Variable encode : string → vector T.

Lemma dot_products_comm (a b : vector T) (acc : T) :
  foldl (λ acc xy, acc + xy.1 * xy.2) acc (zip a b)
  = foldl (λ acc xy, acc + xy.1 * xy.2) acc (zip b a).
Proof.
  revert b acc. induction a as [|x a IH]; intros [|y b] acc; simpl; try done.
  by rewrite IH, (fmul_comm x y).
Qed.

(** X12.  [similarity] is symmetric: exchanging the two texts gives the
    same score, or the same shape error. *)
Theorem similarity_symmetric (x_i x_c : string) :
  similarity encode x_i x_c = similarity encode x_c x_i.
Proof.
  unfold similarity, dot, embed.
  destruct (decide (length (encode x_i) = length (encode x_c))) as [Hlen|Hlen].
  - rewrite decide_True by done. by rewrite dot_products_comm.
  - by rewrite decide_False.
Qed.
End similarity_more.

Section pairs_more.
Context {T : Type} `{Arith T}.
Variable encode : string → vector T.

Lemma similarity_Raise (x_i x_c : string) :
  length (encode x_i) ≠ length (encode x_c) →
  similarity encode x_i x_c = Raise RuntimeError.
Proof. intros Hlen. unfold similarity, dot, embed. by rewrite decide_False. Qed.

Lemma label_pair_Raise (example : Example) (acc : list TrainingPair)
    (snippet : string) :
  length (encode (user_input example)) ≠ length (encode snippet) →
  label_pair encode example acc snippet = Raise RuntimeError.
Proof. intros Hlen. unfold label_pair. by rewrite similarity_Raise. Qed.

Lemma label_pairs_cases (example : Example) (acc : list TrainingPair) :
  (Forall (λ snippet, length (encode (user_input example))
                      = length (encode snippet)) (snippets example) ∧
   ∃ new,
     for_each (label_pair encode example) (snippets example) acc
       = Ok (acc ++ new) ∧
     (λ p : TrainingPair, p.1.2) <$> new = snippets example) ∨
  (¬ Forall (λ snippet, length (encode (user_input example))
                        = length (encode snippet)) (snippets example) ∧
   for_each (label_pair encode example) (snippets example) acc
     = Raise RuntimeError).
Proof.
  revert acc. induction (snippets example) as [|snippet rest IH]; intros acc.
  { left. split; [done|]. exists []. by rewrite app_nil_r. }
  cbn [for_each].
  destruct (decide (length (encode (user_input example))
                    = length (encode snippet))) as [Hlen|Hlen].
  - destruct (similarity_defined encode _ _ Hlen) as [score Hs].
    rewrite (label_pair_Ok encode _ _ _ _ Hs). cbn [mbind result_bind].
    destruct (IH (acc ++ [(user_input example, snippet,
                           if fltb threshold score then 1 else 0)]))
      as [(Hall & new & -> & Hnew)|[Hnot ->]].
    + left. split; [by constructor|]. eexists (_ :: new).
      rewrite <- (assoc_L (++)). split; [done|].
      rewrite fmap_cons. by f_equal.
    + right. split; [|done]. by intros [_ ?]%Forall_cons.
  - rewrite (label_pair_Raise _ _ _ Hlen). right. split; [|done]. by intros [? _]%Forall_cons.
Qed.

Lemma example_pairs_loop_cases (dataset : list Example)
    (acc : list TrainingPair) :
  (Forall (λ example,
             Forall (λ snippet, length (encode (user_input example))
                                = length (encode snippet))
                    (snippets example)) dataset ∧
   ∃ new,
     for_each (λ example_pairs example,
                 for_each (label_pair encode example)
                          (snippets example) example_pairs)
              dataset acc = Ok (acc ++ new) ∧
     (λ p : TrainingPair, p.1.2) <$> new = concat (snippets <$> dataset)) ∨
  (¬ Forall (λ example,
               Forall (λ snippet, length (encode (user_input example))
                                  = length (encode snippet))
                      (snippets example)) dataset ∧
   for_each (λ example_pairs example,
               for_each (label_pair encode example)
                        (snippets example) example_pairs)
            dataset acc = Raise RuntimeError).
Proof.
  revert acc. induction dataset as [|example dataset IH]; intros acc.
  { left. split; [done|]. exists []. by rewrite app_nil_r. }
  cbn [for_each].
  destruct (label_pairs_cases example acc)
    as [(Hall1 & new1 & -> & Hnew1)|[Hnot ->]]; cbn [mbind result_bind].
  - destruct (IH (acc ++ new1)) as [(Hall & new & -> & Hnew)|[Hnot ->]].
    + left. split; [by constructor|]. exists (new1 ++ new).
      rewrite <- (assoc_L (++)). split; [done|].
      rewrite fmap_app, Hnew1, Hnew. done.
    + right. split; [|done]. by intros [_ ?]%Forall_cons.
  - right. split; [|done]. by intros [? _]%Forall_cons.
Qed.

(** X13.  [example_pairs] returns one pair per entry of the retrieval
    corpus, with the corpus entries as passages in corpus order, when in
    every Example the query's embedding is as long as each snippet's;
    for every other dataset it raises [RuntimeError]. *)
Theorem example_pairs_cases (dataset : list Example) :
  (Forall (λ example,
             Forall (λ snippet, length (encode (user_input example))
                                = length (encode snippet))
                    (snippets example)) dataset →
   ∃ pairs, example_pairs encode dataset = Ok pairs ∧
            (λ p : TrainingPair, p.1.2) <$> pairs = all_snippets dataset) ∧
  (¬ Forall (λ example,
               Forall (λ snippet, length (encode (user_input example))
                                  = length (encode snippet))
                      (snippets example)) dataset →
   example_pairs encode dataset = Raise RuntimeError).
Proof.
  unfold example_pairs. rewrite all_snippets_concat.
  destruct (example_pairs_loop_cases dataset [])
    as [(Hall & new & -> & Hnew)|[Hnot ->]].
  - split; [by exists new | done].
  - split; [done | done].
Qed.

(** With embeddings of one length there are as many pairs as corpus
    entries. *)
Lemma example_pairs_length (dataset : list Example) :
  (∀ text, length (encode text) = dim encode) →
  ∃ pairs, example_pairs encode dataset = Ok pairs ∧
           length pairs = length (all_snippets dataset).
Proof.
  intros Hdim. unfold example_pairs. rewrite all_snippets_concat.
  destruct (example_pairs_loop_cases dataset [])
    as [(_ & new & -> & Hnew)|[Hnot _]].
  - exists new. split; [done|]. by rewrite <- Hnew, length_fmap.
  - destruct Hnot. apply Forall_forall. intros example _.
    apply Forall_forall. intros snippet _. by rewrite !Hdim.
Qed.
End pairs_more.

(** ** Training, continued *)

Section training_more.
Context {T : Type} `{Arith T}.
Local Open Scope num_scope.
Variable encode : string → vector T.
Variable loss_func : T → T → T.
Variable loss_gradient : TrainingPair → matrix T → matrix T.
Variable Adam : Type.
Variable adam_step : Adam → matrix T → option (matrix T) → Adam * matrix T.

Local Abbreviation d := (dim encode).

(** The calls of one epoch. *)
Local Abbreviation epoch_calls train_pairs :=
  ([ZeroGrad] ++ (Backward <$> train_pairs) ++ [Step]).

Lemma pair_loss_misshaped (x_i x_c : string) (y : nat) (M : matrix T) :
  length (encode x_i) ≠ length M →
  pair_loss encode loss_func M (x_i, x_c, y) = Raise RuntimeError.
Proof.
  intros Hlen. unfold pair_loss, similarity_with_projection, vecmat, embed.
  by rewrite decide_False.
Qed.

(** A matrix with another number of rows than the first query's
    embedding has entries stops the first epoch at its first pair. *)
Lemma run_epoch_misshaped (x_i x_c : string) (y : nat)
    (train_pairs val_pairs : list TrainingPair) (st : trainer T Adam)
    (epoch : nat) :
  length (encode x_i) ≠ length (P st) →
  run_epoch encode loss_func loss_gradient adam_step
    ((x_i, x_c, y) :: train_pairs) val_pairs st epoch
  = Raise RuntimeError.
Proof.
  intros Hlen. unfold run_epoch, train_phase. cbn [for_each].
  change (P (zero_grad st)) with (P st).
  by rewrite (pair_loss_misshaped _ _ _ _ Hlen).
Qed.

(** X14.  When the matrix does not have as many rows as the embedding of
    the first training pair's query has entries, training raises
    [RuntimeError] in its first epoch, before any validation loss is
    printed. *)
Theorem training_misshaped_matrix (x_i x_c : string) (y : nat)
    (train_pairs val_pairs : list TrainingPair) (st : trainer T Adam)
    (n : nat) :
  length (encode x_i) ≠ length (P st) →
  training encode loss_func loss_gradient adam_step
    ((x_i, x_c, y) :: train_pairs) val_pairs (S n) st
  = Raise RuntimeError.
Proof.
  intros Hlen. unfold training. cbn [seq for_each].
  by rewrite run_epoch_misshaped.
Qed.

(** Every embedding has [dim] entries. *)
Hypothesis encode_dim : ∀ text, length (encode text) = dim encode.

(** With no validation pair the first epoch trains, steps the optimizer
    and then fails at the print. *)
Lemma run_epoch_empty_validation (train_pairs : list TrainingPair)
    (st : trainer T Adam) (epoch : nat) :
  has_shape d d (P st) →
  run_epoch encode loss_func loss_gradient adam_step train_pairs [] st epoch
  = Raise AttributeError.
Proof.
  intros HP. unfold run_epoch, train_phase.
  rewrite (train_loop encode loss_func loss_gradient Adam encode_dim) by done.
  done.
Qed.

(** X15.  Without validation pairs, training of at least one epoch
    raises [AttributeError] in the first epoch: the validation loss is
    still the integer 0 when [.item()] is called on it. *)
Theorem training_empty_validation (train_pairs : list TrainingPair)
    (st : trainer T Adam) (n : nat) :
  has_shape d d (P st) →
  training encode loss_func loss_gradient adam_step train_pairs [] (S n) st
  = Raise AttributeError.
Proof.
  intros HP. unfold training. cbn [seq for_each].
  by rewrite run_epoch_empty_validation.
Qed.

(** The optimizer returns a matrix of the shape it was given. *)
Hypothesis adam_step_shape : ∀ o M g,
  has_shape d d M → has_shape d d (adam_step o M g).2.

Lemma run_epoch_trace (train_pairs val_pairs : list TrainingPair)
    (epoch : nat) (st : trainer T Adam) :
  has_shape d d (P st) → val_pairs ≠ [] →
  ∃ st2 val_loss,
    run_epoch encode loss_func loss_gradient adam_step train_pairs val_pairs
      st epoch = Ok st2 ∧
    has_shape d d (P st2) ∧
    calls st2 = calls st ++ epoch_calls train_pairs ∧
    stdout st2 = stdout st ++ [(epoch, val_loss)].
Proof.
  intros HP Hval. unfold run_epoch, train_phase.
  rewrite (train_loop encode loss_func loss_gradient Adam encode_dim) by done.
  cbn [mbind result_bind zero_grad P P_grad optimizer calls stdout].
  pose proof (adam_step_shape (optimizer st) (P st)
                (foldl accumulate None
                       ((λ p, loss_gradient p (P st)) <$> train_pairs)) HP)
    as HP1.
  unfold step. cbn [P P_grad optimizer calls stdout].
  destruct (adam_step _ _ _) as [o1 P1]. cbn [snd] in HP1.
  edestruct (validation_phase_defined encode loss_func Adam val_pairs
               encode_dim epoch) as [val_loss ->]; [exact HP1 | done |].
  eexists _, val_loss. split; [done|]. cbn.
  split; [done|]. split; [|done]. by rewrite <- !(assoc_L (++)).
Qed.

Lemma training_from (train_pairs val_pairs : list TrainingPair)
    (n start : nat) (st : trainer T Adam) :
  has_shape d d (P st) → val_pairs ≠ [] →
  ∃ st',
    for_each (run_epoch encode loss_func loss_gradient adam_step
                train_pairs val_pairs) (seq start n) st = Ok st' ∧
    calls st' = calls st ++ mjoin (replicate n (epoch_calls train_pairs)) ∧
    (stdout st').*1 = (stdout st).*1 ++ seq start n.
Proof.
  intros HP Hval. revert start st HP.
  induction n as [|n IH]; intros start st HP; cbn [seq for_each].
  { exists st. by rewrite !app_nil_r. }
  destruct (run_epoch_trace train_pairs val_pairs start st HP Hval)
    as (st2 & val_loss & -> & HP2 & Hcalls2 & Hout2).
  cbn [mbind result_bind].
  destruct (IH (S start) st2 HP2) as (st' & -> & Hcalls & Hout).
  exists st'. split; [done|]. split.
  - rewrite Hcalls, Hcalls2. cbn [replicate mjoin list_join].
    by rewrite <- !(assoc_L (++)).
  - rewrite Hout, Hout2, fmap_app. by rewrite <- !(assoc_L (++)).
Qed.

(** X16.  A training run of [n] epochs on a non-empty validation set
    makes, [n] times over, one [zero_grad], one [backward] per training
    pair and one [step], and prints the epochs 0 to [n - 1] in order:
    the optimizer steps exactly [n] times. *)
Theorem training_trace (train_pairs val_pairs : list TrainingPair)
    (n : nat) (st : trainer T Adam) :
  has_shape d d (P st) → val_pairs ≠ [] →
  ∃ st',
    training encode loss_func loss_gradient adam_step train_pairs val_pairs
      n st = Ok st' ∧
    calls st' = calls st ++ mjoin (replicate n (epoch_calls train_pairs)) ∧
    (stdout st').*1 = (stdout st).*1 ++ seq 0 n.
Proof. intros HP Hval. by apply training_from. Qed.
End training_more.

(** ** From the dataset to the trained matrix *)

Section pipeline.
Context {T : Type} `{Arith T}.
Variable encode : string → vector T.
Variable loss_func : T → T → T.
Variable loss_gradient : TrainingPair → matrix T → matrix T.
Variable Adam : Type.
Variable adam_step : Adam → matrix T → option (matrix T) → Adam * matrix T.
Variable shuffle : list TrainingPair → list TrainingPair.

Hypothesis encode_dim : ∀ text, length (encode text) = dim encode.
Hypothesis adam_step_shape : ∀ o M g,
  has_shape (dim encode) (dim encode) M →
  has_shape (dim encode) (dim encode) (adam_step o M g).2.
Hypothesis shuffle_permutes : ∀ l, shuffle l ≡ₚ l.

(** X17.  Cells 11, 12 and 16 in a row, for a dataset of up to 10000
    snippets: the pairs are generated; when the dataset has at least one
    snippet, training on the split runs all of its 25 epochs and prints
    the epochs 0 to 24; when it has none, training raises
    [AttributeError]. *)
Theorem training_after_split (dataset : list Example) (P_init : matrix T)
    (adam_init : Adam) :
  has_shape (dim encode) (dim encode) P_init →
  length (all_snippets dataset) ≤ Z.to_nat 10000 →
  ∃ pairs,
    example_pairs encode dataset = Ok pairs ∧
    (all_snippets dataset ≠ [] →
     ∃ st',
       training encode loss_func loss_gradient adam_step
         (split_pairs shuffle pairs).1 (split_pairs shuffle pairs).2
         num_epochs (initial_trainer P_init adam_init) = Ok st' ∧
       (stdout st').*1 = seq 0 num_epochs) ∧
    (all_snippets dataset = [] →
     training encode loss_func loss_gradient adam_step
       (split_pairs shuffle pairs).1 (split_pairs shuffle pairs).2
       num_epochs (initial_trainer P_init adam_init)
     = Raise AttributeError).
Proof.
  intros HP Hn.
  destruct (example_pairs_length encode dataset encode_dim)
    as (pairs & Hpairs & Hlen).
  exists pairs. split; [done|].
  pose proof (split_pairs_val_nil shuffle pairs shuffle_permutes) as Hval.
  rewrite Hlen in Hval. specialize (Hval Hn). split.
  - intros Hcorpus.
    destruct (training_from encode loss_func loss_gradient Adam adam_step
                encode_dim adam_step_shape (split_pairs shuffle pairs).1
                (split_pairs shuffle pairs).2 num_epochs 0
                (initial_trainer P_init adam_init)) as (st' & Hrun & _ & Hout).
    + done.
    + intros Hnil. apply Hval in Hnil. subst pairs.
      by destruct (all_snippets dataset).
    + by exists st'.
  - intros Hcorpus. rewrite Hcorpus in Hlen.
    apply nil_length_inv in Hlen. rewrite (proj2 Hval Hlen).
    unfold training. change num_epochs with (S 24). cbn [seq for_each].
    by rewrite (run_epoch_empty_validation encode loss_func loss_gradient Adam
                  adam_step encode_dim).
Qed.
End pipeline.

(** ** Retrieval with the identity matrix *)

Section retrieval_identity.
Context {T : Type} `{ZeroOneLaws T}.
Variable encode : string → vector T.

(** X18.  With the identity matrix of the embedding dimension, and a
    query whose embedding has finite entries only,
    [retrieve_relevant_snippets] scores every snippet of the corpus with
    its plain [similarity] to the query. *)
Theorem retrieve_with_identity (corpus : list string) (query : string) :
  (∀ text, length (encode text) = dim encode) →
  Forall finite (encode query) →
  ∃ ranked,
    retrieve_relevant_snippets encode (eye (dim encode)) corpus query
      = Ok ranked ∧
    Forall2 (λ snippet r, r.1 = snippet ∧
                          similarity encode query snippet = Ok r.2)
            corpus ranked.
Proof.
  intros Hdim Hfinite. unfold retrieve_relevant_snippets.
  rewrite <- (Hdim query). unfold embed at 1. rewrite vecmat_eye by done.
  cbn [mbind result_bind].
  destruct (retrieve_loop_cases encode (fadd f0 <$> encode query) corpus [])
    as [(_ & new & Hloop & Hnew)|[Hnot _]].
  - exists new. split; [exact Hloop|].
    eapply Forall2_impl; [exact Hnew|]. intros snippet r [Hr Hdot].
    split; [done|]. unfold similarity, embed.
    by rewrite <- dot_plus_zero.
  - destruct Hnot. apply Forall_forall. intros snippet _.
    by rewrite length_fmap, !Hdim.
Qed.
End retrieval_identity.


(** ** The rest of the notebook on the toy collaborators *)

Lemma eye_2_shape : has_shape (T:=float) 2 2 (eye 2).
Proof. split; [reflexivity | repeat constructor]. Qed.

Lemma swap_matrix_shape : has_shape (T:=float) 2 2 swap_matrix.
Proof. split; [reflexivity | repeat constructor]. Qed.

Lemma evaluation_independent_of_projection_toy :
  evaluate_retrieval_strategy (T:=float) two_query_dataset
    (retrieve_relevant_snippets toy_encode (eye 2)
       (all_snippets two_query_dataset))
  = evaluate_retrieval_strategy two_query_dataset
      (retrieve_relevant_snippets toy_encode swap_matrix
         (all_snippets two_query_dataset)).
Proof.
  apply (evaluation_independent_of_projection (T:=float)).
  - intros text. apply toy_encode_dim.
  - apply eye_2_shape.
  - apply swap_matrix_shape.
Defined.

Lemma evaluate_retrieval_strategy_raises_toy :
  evaluate_retrieval_strategy two_query_dataset addition_only_strategy
  = Raise RuntimeError.
Proof.
  apply (evaluate_retrieval_strategy_raises
           [{| user_input := sum_question; snippets := [sum_snippet] |}] []
           {| user_input := auth_question; snippets := [auth_snippet] |}).
  - repeat constructor. by eexists.
  - reflexivity.
Defined.

Lemma average_precision_trailing_misses_toy :
  average_precision (T:=float) [auth_snippet]
    ([(auth_snippet, 1%float)] ++ [(sum_snippet, 0%float)])
  = average_precision [auth_snippet] [(auth_snippet, 1%float)].
Proof. apply average_precision_trailing_misses. by_computation. Defined.

Lemma average_precision_relevant_order_toy :
  average_precision (T:=float) [auth_snippet; sum_snippet]
    [(sum_snippet, 0.5%float); (auth_question, 0.25%float)]
  = average_precision [sum_snippet; auth_snippet]
      [(sum_snippet, 0.5%float); (auth_question, 0.25%float)].
Proof.
  apply average_precision_relevant_order; [|reflexivity].
  intros x. rewrite !elem_of_cons. tauto.
Defined.

Lemma similarity_symmetric_toy :
  similarity (T:=float) toy_encode auth_question sum_snippet
  = similarity toy_encode sum_snippet auth_question.
Proof. apply (similarity_symmetric (T:=float)). Defined.

Lemma training_misshaped_matrix_toy :
  training (T:=float) toy_encode squared_error
    (squared_error_gradient toy_encode) gradient_descent_step
    ((auth_question, auth_snippet, 1) :: [(auth_question, sum_snippet, 0)])
    toy_val_pairs (S 24) (initial_trainer [[1%float]] 0)
  = Raise RuntimeError.
Proof. apply training_misshaped_matrix. simpl. lia. Defined.

Lemma training_empty_validation_toy :
  training (T:=float) toy_encode squared_error
    (squared_error_gradient toy_encode) gradient_descent_step
    toy_train_pairs [] (S 24) (initial_trainer swap_matrix 0)
  = Raise AttributeError.
Proof.
  apply (training_empty_validation (T:=float)).
  - intros text. apply toy_encode_dim.
  - apply swap_matrix_shape.
Defined.

Lemma training_trace_toy :
  ∃ st',
    training (T:=float) toy_encode squared_error
      (squared_error_gradient toy_encode) gradient_descent_step
      toy_train_pairs toy_val_pairs 3 (initial_trainer swap_matrix 0)
      = Ok st' ∧
    calls st'
      = [] ++ mjoin (replicate 3 ([ZeroGrad] ++ (Backward <$> toy_train_pairs)
                                    ++ [Step])) ∧
    (stdout st').*1 = [] ++ seq 0 3.
Proof.
  apply (training_trace (T:=float) toy_encode squared_error
           (squared_error_gradient toy_encode) nat gradient_descent_step).
  - intros text. apply toy_encode_dim.
  - intros o M g. apply gradient_descent_step_shape.
  - apply swap_matrix_shape.
  - discriminate.
Defined.

Lemma training_after_split_toy :
  ∃ pairs,
    example_pairs (T:=float) toy_encode toy_dataset = Ok pairs ∧
    (all_snippets toy_dataset ≠ [] →
     ∃ st',
       training toy_encode squared_error (squared_error_gradient toy_encode)
         gradient_descent_step
         (split_pairs reverse pairs).1 (split_pairs reverse pairs).2
         num_epochs (initial_trainer swap_matrix 0) = Ok st' ∧
       (stdout st').*1 = seq 0 num_epochs) ∧
    (all_snippets toy_dataset = [] →
     training toy_encode squared_error (squared_error_gradient toy_encode)
       gradient_descent_step
       (split_pairs reverse pairs).1 (split_pairs reverse pairs).2
       num_epochs (initial_trainer swap_matrix 0)
     = Raise AttributeError).
Proof.
  apply (training_after_split (T:=float) toy_encode squared_error
           (squared_error_gradient toy_encode) nat gradient_descent_step
           reverse).
  - intros text. apply toy_encode_dim.
  - intros o M g. apply gradient_descent_step_shape.
  - intros l. apply reverse_Permutation.
  - apply swap_matrix_shape.
  - vm_compute. lia.
Defined.

(** The toy dataset has two pairs; the split leaves one for training
    and one for validation, and the first epoch prints 0.5. *)
Example notebook_toy_run :
  ∃ pairs st1,
    example_pairs (T:=float) toy_encode toy_dataset = Ok pairs ∧
    split_pairs reverse pairs
      = ([(auth_question, sum_snippet, 0)],
         [(auth_question, auth_snippet, 1)]) ∧
    training toy_encode squared_error (squared_error_gradient toy_encode)
      gradient_descent_step
      (split_pairs reverse pairs).1 (split_pairs reverse pairs).2
      1 (initial_trainer swap_matrix 0) = Ok st1 ∧
    stdout st1 = [(0, 0.5%float)].
Proof. do 2 eexists. repeat split; by vm_compute. Qed.

Lemma retrieve_with_identity_toy :
  ∃ ranked,
    retrieve_relevant_snippets (T:=float) toy_encode
      (eye (dim (toy_encode (T:=float))))
      (all_snippets two_query_dataset) auth_question = Ok ranked ∧
    Forall2 (λ snippet r, r.1 = snippet ∧
                          similarity toy_encode auth_question snippet = Ok r.2)
            (all_snippets two_query_dataset) ranked.
Proof.
  apply (retrieve_with_identity (T:=float)).
  - intros text. apply toy_encode_dim.
  - repeat constructor.
Defined.

(** With an infinite entry in the query's embedding the scores are NaN
    where the similarity is a number. *)
Example retrieve_with_identity_infinite_query :
  retrieve_relevant_snippets unbounded_encode (eye 2) [sum_snippet]
    auth_question = Ok [(sum_snippet, nan)] ∧
  similarity unbounded_encode auth_question sum_snippet = Ok infinity.
Proof. by vm_compute. Qed.
